(** * MintelliFunds inference server: model and verified properties

    A shallow embedding of [src/src/inference_server.cpp],
    [src/src/model_loader.cpp] and the serving part of [src/src/main.cpp].

    Library calls ([std::regex], [std::stof], [operator<<] on floats, the
    socket calls) are modelled as the GNU toolchain implements them on the
    POSIX platform the sources target; every place where the C or C++ standard
    leaves a choice to the implementation is marked where it is modelled. *)

From Stdlib Require Import ZArith List String Ascii Bool Lia DecimalString
  DecimalPos.
Import ListNotations.

Local Open Scope string_scope.
Local Open Scope Z_scope.

(* ================================================================== *)
(** ** Text helpers *)

Definition dq : string := String "034"%char EmptyString.
Definition LF : string := String "010"%char EmptyString.
Definition CRLF : string := String "013"%char LF.

Definition slen (s : string) : nat := String.length s.

(** The first [n] characters of [s]. *)
Fixpoint stake (n : nat) (s : string) : string :=
  match n, s with
  | S n', String a s' => String a (stake n' s')
  | _, _ => EmptyString
  end.

(** The text consumed between a position [s] and a later position [s'] of
    the same subject (both given as the remaining input). *)
Definition consumed (s s' : string) : string :=
  stake (slen s - slen s') s.

Definition string_of_Z (z : Z) : string :=
  NilZero.string_of_int (Z.to_int z).

(* ================================================================== *)
(** ** std::regex, ECMAScript grammar: the fragment the two patterns use

    Matching is the backtracking search of ECMA-262 that [std::regex]
    implements: quantifiers are greedy, alternatives are tried in priority
    order and the first complete match wins. *)

Module Regex.

Inductive cclass : Type :=
| CLit (c : ascii)              (* an ordinary character *)
| COneOf (cs : list ascii)      (* [-+]  [eE] *)
| CRange (lo hi : ascii)        (* [0-9] *)
| CNoneOf (cs : list ascii)     (* [^\]] *)
| CSpace.                       (* \s *)

Inductive regex : Type :=
| Eps
| Chr (c : cclass)
| Star (c : cclass)             (* c*  greedy *)
| Plus (c : cclass)             (* c+  greedy *)
| Opt (r : regex)               (* r?  greedy *)
| Cat (r1 r2 : regex)
| Group (i : nat) (r : regex).  (* capturing parentheses, number i *)

Definition ascii_in (a : ascii) (cs : list ascii) : bool :=
  existsb (Ascii.eqb a) cs.

(** [\s] is the [space] class of the classic locale: SPC, TAB, LF, VT, FF, CR. *)
Definition is_space (a : ascii) : bool :=
  let n := nat_of_ascii a in
  (Nat.eqb n 32 || (Nat.leb 9 n && Nat.leb n 13))%bool.

Definition in_class (c : cclass) (a : ascii) : bool :=
  match c with
  | CLit x => Ascii.eqb a x
  | COneOf cs => ascii_in a cs
  | CRange lo hi =>
      (Nat.leb (nat_of_ascii lo) (nat_of_ascii a)
       && Nat.leb (nat_of_ascii a) (nat_of_ascii hi))%bool
  | CNoneOf cs => negb (ascii_in a cs)
  | CSpace => is_space a
  end.

Definition caps : Type := list (nat * string).

Section Matcher.
Context {R : Type}.

(** Greedy star over a character class: take one more character if
    possible and continue; on failure of the rest, give the character
    back and try the continuation here. *)
Fixpoint star_k (c : cclass) (k : string -> option R) (s : string)
  : option R :=
  match s with
  | String a s' =>
      if in_class c a
      then match star_k c k s' with
           | Some r => Some r
           | None => k s
           end
      else k s
  | EmptyString => k s
  end.

Fixpoint m (r : regex) (s : string) (cs : caps)
           (k : string -> caps -> option R) : option R :=
  match r with
  | Eps => k s cs
  | Chr c =>
      match s with
      | String a s' => if in_class c a then k s' cs else None
      | EmptyString => None
      end
  | Star c => star_k c (fun s' => k s' cs) s
  | Plus c =>
      match s with
      | String a s' =>
          if in_class c a then star_k c (fun s'' => k s'' cs) s' else None
      | EmptyString => None
      end
  | Opt r1 =>
      match m r1 s cs k with
      | Some x => Some x
      | None => k s cs
      end
  | Cat r1 r2 => m r1 s cs (fun s' cs' => m r2 s' cs' k)
  | Group i r1 =>
      m r1 s cs (fun s' cs' => k s' ((i, consumed s s') :: cs'))
  end.
End Matcher.

(** A match anchored at the start of [s]: the input left after the match
    and the captures. *)
Definition match_at (r : regex) (s : string) : option (string * caps) :=
  m r s [] (fun s' cs => Some (s', cs)).

(** What [std::smatch] holds after a successful search: the text before the
    match, the match, the text after it, and the captures. *)
Record smatch : Type := {
  prefix : string;
  matched : string;
  suffix : string;
  groups : caps
}.

(** [std::regex_search]: the leftmost start position with a match. *)
Fixpoint regex_search_from (r : regex) (pre : string) (s : string)
  : option smatch :=
  match match_at r s with
  | Some (rest, cs) =>
      Some {| prefix := pre; matched := consumed s rest;
              suffix := rest; groups := cs |}
  | None =>
      match s with
      | String a s' =>
          regex_search_from r (pre ++ String a EmptyString) s'
      | EmptyString => None
      end
  end.

Definition regex_search (r : regex) (s : string) : option smatch :=
  regex_search_from r EmptyString s.

(** [match[i].str()]: the text of group [i], empty if it did not take part. *)
Fixpoint group_str (i : nat) (cs : caps) : string :=
  match cs with
  | [] => EmptyString
  | (j, t) :: rest => if Nat.eqb i j then t else group_str i rest
  end.

(** A literal string as the concatenation of its characters. *)
Fixpoint lit (s : string) : regex :=
  match s with
  | EmptyString => Eps
  | String a s' => Cat (Chr (CLit a)) (lit s')
  end.

(** [std::sregex_iterator] run to the end: the successive matches, each
    search starting where the previous match ended.  The iterator of the
    library treats an empty match specially; here an empty match ends the
    iteration, and [fuel] bounds the number of matches. *)
Fixpoint sregex_iterate (fuel : nat) (r : regex) (s : string) : list string :=
  match fuel with
  | O => []
  | S f =>
      match regex_search r s with
      | Some mt =>
          if Nat.eqb (slen (matched mt)) 0 then []
          else matched mt :: sregex_iterate f r (suffix mt)
      | None => []
      end
  end.

Definition sregex_all (r : regex) (s : string) : list string :=
  sregex_iterate (S (slen s)) r s.

End Regex.

Import Regex.

(* ================================================================== *)
(** ** The two patterns of [parse_input_json] *)

Definition digit : cclass := CRange "0"%char "9"%char.
Definition sign : cclass := COneOf ["-"%char; "+"%char].

Definition features_key : string := dq ++ "features" ++ dq.

(** ["features"\s*:\s*\[([^\]]+)\]] *)
Definition features_regex : regex :=
  Cat (lit features_key)
  (Cat (Star CSpace)
  (Cat (Chr (CLit ":"%char))
  (Cat (Star CSpace)
  (Cat (Chr (CLit "["%char))
  (Cat (Group 1 (Plus (CNoneOf ["]"%char])))
       (Chr (CLit "]"%char))))))).

(** [[-+]?[0-9]*\.?[0-9]+([eE][-+]?[0-9]+)?] *)
Definition number_regex : regex :=
  Cat (Opt (Chr sign))
  (Cat (Star digit)
  (Cat (Opt (Chr (CLit "."%char)))
  (Cat (Plus digit)
       (Opt (Group 1
          (Cat (Chr (COneOf ["e"%char; "E"%char]))
          (Cat (Opt (Chr sign))
               (Plus digit)))))))).

(* ================================================================== *)
(** ** C++ control outcomes *)

(** The exception classes that occur; each carries its [what()] text. *)
Inductive exn : Type :=
| runtime_error (what : string)
| out_of_range (what : string)
| invalid_argument (what : string)
| c10_Error (what : string).

Definition what (e : exn) : string :=
  match e with
  | runtime_error w | out_of_range w | invalid_argument w | c10_Error w => w
  end.

(** A call returns a value, leaves by an exception, or has no defined
    behaviour (an access outside an array). *)
Inductive outcome (A : Type) : Type :=
| Ok (a : A)
| Throw (e : exn)
| Undefined.
Arguments Ok {A} a.
Arguments Throw {A} e.
Arguments Undefined {A}.

Definition obind {A B} (o : outcome A) (f : A -> outcome B) : outcome B :=
  match o with
  | Ok a => f a
  | Throw e => Throw e
  | Undefined => Undefined
  end.

(** Evaluate [f] on each element from left to right, stopping at the first
    one that does not return. *)
Fixpoint omap {A B} (f : A -> outcome B) (l : list A) : outcome (list B) :=
  match l with
  | [] => Ok []
  | x :: rest =>
      obind (f x) (fun y => obind (omap f rest) (fun ys => Ok (y :: ys)))
  end.

(* ================================================================== *)
(** ** IEEE-754 binary32 ([float]), [std::stof] and fixed formatting *)

Module Float32.

(** A [float]: zero, a finite non-zero value [(-1)^neg * mant * 2^expo]
    with [0 < mant < 2^24] and [-149 <= expo <= 104], an infinity, or a
    NaN. *)
Inductive float : Type :=
| FZero (neg : bool)
| FFinite (neg : bool) (mant : Z) (expo : Z)
| FInf (neg : bool)
| FNaN (neg : bool).

(** The integer nearest to [n / d] ([d > 0]), ties to even. *)
Definition round_nearest_even (n d : Z) : Z :=
  let q := n / d in
  let r := n mod d in
  match 2 * r ?= d with
  | Lt => q
  | Gt => q + 1
  | Eq => if Z.even q then q else q + 1
  end.

(** [n / d / 2^e] as a fraction. *)
Definition scale2 (n d e : Z) : Z * Z :=
  if 0 <=? e then (n, d * 2 ^ e) else (n * 2 ^ (- e), d).

(** [floor (log2 (n / d))] for positive [n] and [d]. *)
Definition binade (n d : Z) : Z :=
  let l := Z.log2 n - Z.log2 d in
  let '(n', d') := scale2 n d l in
  if d' <=? n' then l else l - 1.

(** Result of rounding the exact value [(-1)^neg * n / d] to binary32 in
    round-to-nearest-even: the float, whether it differs from the exact
    value, whether the exact value was too large for the format, and
    whether the value is tiny (below the least normal number when rounded
    to 24 bits with an unbounded exponent, "tininess after rounding"). *)
Record rounded : Type := {
  r_val : float;
  r_inexact : bool;
  r_overflow : bool;
  r_tiny : bool
}.

(** [n / d], positive, rounded to a 24-bit significand [mt] with the
    exponent [e] kept at or above [emin]: [(mt, e)] and inexactness. *)
Definition round_significand (n d emin : Z) : Z * Z * bool :=
  let e := Z.max (binade n d - 23) emin in
  let '(n', d') := scale2 n d e in
  let mt := round_nearest_even n' d' in
  let inexact := negb (n' mod d' =? 0) in
  if mt =? 2 ^ 24 then (2 ^ 23, e + 1, inexact) else (mt, e, inexact).

Definition round_binary32 (neg : bool) (n d : Z) : rounded :=
  if n =? 0 then
    {| r_val := FZero neg; r_inexact := false; r_overflow := false;
       r_tiny := false |}
  else
    let '(mt, e, inexact) := round_significand n d (-149) in
    let '(_, e_unbounded, _) := round_significand n d (binade n d - 23) in
    let is_tiny := e_unbounded <? -149 in
    if 104 <? e then
      {| r_val := FInf neg; r_inexact := true; r_overflow := true;
         r_tiny := false |}
    else if mt =? 0 then
      {| r_val := FZero neg; r_inexact := inexact; r_overflow := false;
         r_tiny := is_tiny |}
    else
      {| r_val := FFinite neg mt e; r_inexact := inexact;
         r_overflow := false; r_tiny := is_tiny |}.

Definition is_digit (a : ascii) : bool := in_class (CRange "0"%char "9"%char) a.

Fixpoint span (p : ascii -> bool) (s : string) : string * string :=
  match s with
  | String a s' =>
      if p a then let '(l, r) := span p s' in (String a l, r)
      else (EmptyString, s)
  | EmptyString => (EmptyString, EmptyString)
  end.

Fixpoint digits_value (acc : Z) (s : string) : Z :=
  match s with
  | String a s' =>
      digits_value (10 * acc + (Z.of_nat (nat_of_ascii a) - 48)) s'
  | EmptyString => acc
  end.

Definition take_sign (s : string) : bool * string :=
  match s with
  | String a r =>
      if Ascii.eqb a "-" then (true, r)
      else if Ascii.eqb a "+" then (false, r)
      else (false, s)
  | EmptyString => (false, s)
  end.

(** The exponent part, when one is completely present: [e] or [E], an
    optional sign and at least one digit. *)
Definition exponent_part (s : string) : Z :=
  match s with
  | String c r =>
      if ascii_in c ["e"%char; "E"%char] then
        let '(eneg, r1) := take_sign r in
        let '(ed, _) := span is_digit r1 in
        if Nat.eqb (slen ed) 0 then 0
        else if eneg then - digits_value 0 ed else digits_value 0 ed
      else 0
  | EmptyString => 0
  end.

(** Digits with an optional radix point and an optional exponent part:
    the exact value as a fraction, or [None] when there is no digit. *)
Definition unsigned_decimal (s1 : string) : option (Z * Z) :=
  let '(ip, s2) := span is_digit s1 in
  let '(fp, s3) :=
    match s2 with
    | String c r =>
        if Ascii.eqb c "." then span is_digit r else (EmptyString, s2)
    | EmptyString => (EmptyString, s2)
    end in
  if (Nat.eqb (slen ip) 0 && Nat.eqb (slen fp) 0)%bool then None
  else
    let mantissa := digits_value 0 (ip ++ fp) in
    let e10 := exponent_part s3 - Z.of_nat (slen fp) in
    Some (if 0 <=? e10 then (mantissa * 10 ^ e10, 1)
          else (mantissa, 10 ^ (- e10))).

(** The decimal subject sequence of [strtof]: leading white space, a
    sign, and the digits.  Gives the sign and the exact value, or [None]
    when there is nothing to convert.  (The hexadecimal, [inf] and [nan]
    spellings [strtof] also accepts are not modelled: they need a letter
    other than e and E, which no token of [number_regex] contains.) *)
Definition decimal_subject (s : string) : option (bool * (Z * Z)) :=
  let '(_, s0) := span is_space s in
  let '(neg, s1) := take_sign s0 in
  match unsigned_decimal s1 with
  | Some v => Some (neg, v)
  | None => None
  end.

(** [strtof]: the converted value and whether [errno] becomes [ERANGE].
    Overflow gives [HUGE_VALF] and [ERANGE] (C11 7.22.1.3p10).  Whether
    underflow sets [ERANGE] is implementation-defined; glibc sets it when
    the value is tiny and the result inexact (tininess after rounding, as
    on x86-64), and so does the model. *)
Definition strtof (s : string) : option (float * bool) :=
  match decimal_subject s with
  | None => None
  | Some (neg, (n, d)) =>
      let r := round_binary32 neg n d in
      Some (r_val r, (r_overflow r || (r_tiny r && r_inexact r))%bool)
  end.

(** [std::stof]: [invalid_argument] when nothing was converted,
    [out_of_range] when [errno] is [ERANGE].  The text of [what()] is left
    to the implementation; libstdc++ gives the function's name. *)
Definition stof (s : string) : outcome float :=
  match strtof s with
  | None => Throw (invalid_argument "stof")
  | Some (_, true) => Throw (out_of_range "stof")
  | Some (f, false) => Ok f
  end.

Definition digit_char (d : Z) : ascii := ascii_of_nat (48 + Z.to_nat d).

(** The [n] low decimal digits of [z], most significant first. *)
Fixpoint low_digits (n : nat) (z : Z) : string :=
  match n with
  | O => EmptyString
  | S n' => low_digits n' (z / 10) ++ String (digit_char (z mod 10)) EmptyString
  end.

(** [os << std::fixed << std::setprecision(6) << x] for a [float] [x]:
    the value, exactly, rounded to six decimals in round-to-nearest-even
    (the conversion of [printf("%.6f")]). *)
Definition fixed6 (f : float) : string :=
  let sgn (neg : bool) := if neg then "-" else "" in
  match f with
  | FZero neg => sgn neg ++ "0.000000"
  | FFinite neg mt e =>
      let '(n, d) := scale2 mt 1 (- e) in
      let u := round_nearest_even (n * 10 ^ 6) d in
      sgn neg ++ string_of_Z (u / 10 ^ 6) ++ "."
      ++ low_digits 6 (u mod 10 ^ 6)
  | FInf neg => sgn neg ++ "inf"
  | FNaN neg => sgn neg ++ "nan"
  end.

End Float32.

Import Float32.

(* ================================================================== *)
(** ** libtorch values *)

#[local] Set Warnings "-register-all".

Inductive ScalarType : Type := kFloat | kDouble | kLong | kOtherType.

(** A tensor: element type, shape, and its elements in row-major order. *)
Record Tensor : Type := {
  dtype : ScalarType;
  sizes : list Z;
  data : list float
}.

(** [torch::Dict<std::string, torch::Tensor>]: keys are unique and
    iteration follows insertion order. *)
Definition Dict : Type := list (string * Tensor).

Fixpoint dict_contains (k : string) (d : Dict) : bool :=
  match d with
  | [] => false
  | (k', _) :: rest => (String.eqb k k' || dict_contains k rest)%bool
  end.

(** [Dict::insert]: adds the entry at the end unless the key is present. *)
Definition dict_insert (k : string) (v : Tensor) (d : Dict) : Dict :=
  if dict_contains k d then d else (d ++ [(k, v)])%list.

(** [torch::jit::IValue], as far as [predict] looks into it. *)
Inductive IValue : Type :=
| IV_Tensor (t : Tensor)
| IV_String (s : string)
| IV_GenericDict (items : list (IValue * IValue))
| IV_Other.

(** A loaded script module: what [forward] does with an input. *)
Record Module : Type := {
  forward : Tensor -> outcome IValue
}.

(** The default-constructed module a [ModelLoader] holds before [load]. *)
Definition empty_module : Module :=
  {| forward := fun _ => Throw (c10_Error "forward: method not defined") |}.

(* ================================================================== *)
(** ** Effects: a trace of what the code does to the outside *)

Inductive event : Type :=
| EvCout (text : string)
| EvCerr (text : string)
| EvJitLoad (path : string)
| EvPredict (input : Tensor)        (* ModelLoader::predict entered *)
| EvForward (input : Tensor)        (* model_.forward called *)
| EvSend (fd : Z) (bytes : string)
| EvClose (fd : Z)
| EvThread (client_socket : Z).     (* a detached handle_client thread *)

(** A computation: its outcome and the events it produced, in order. *)
Definition M (A : Type) : Type := (outcome A * list event)%type.

Definition ret {A} (a : A) : M A := (Ok a, []).
Definition lift {A} (o : outcome A) : M A := (o, []).
Definition throw {A} (e : exn) : M A := (Throw e, []).
Definition emit (e : event) : M unit := (Ok tt, [e]).

Definition bind {A B} (x : M A) (f : A -> M B) : M B :=
  match x with
  | (Ok a, t) => let '(o, t') := f a in (o, (t ++ t')%list)
  | (Throw e, t) => (Throw e, t)
  | (Undefined, t) => (Undefined, t)
  end.

(** [try { body } catch (const std::exception& e) { handler }] *)
Definition try_catch {A} (body : M A) (handler : exn -> M A) : M A :=
  match body with
  | (Throw e, t) => let '(o, t') := handler e in (o, (t ++ t')%list)
  | r => r
  end.

Notation "x <- c ;; k" := (bind c (fun x => k))
  (at level 61, c at next level, right associativity).
Notation "c ;;; k" := (bind c (fun _ => k))
  (at level 61, right associativity).

Definition outcome_of {A} (x : M A) : outcome A := fst x.
Definition trace_of {A} (x : M A) : list event := snd x.

Definition cout (text : string) : M unit := emit (EvCout text).
Definition cerr (text : string) : M unit := emit (EvCerr text).

(* ================================================================== *)
(** ** model_loader.cpp *)

Record ModelLoader : Type := {
  model_path_ : string;
  model_ : Module;
  loaded_ : bool;
  input_size_ : Z
}.

Section Engine.

(** [torch::jit::load]: what deserialising the file at a path gives. *)
Variable jit_load : string -> outcome Module.

(** [ModelLoader::ModelLoader] *)
Definition ModelLoader_new (model_path : string) : ModelLoader :=
  {| model_path_ := model_path; model_ := empty_module;
     loaded_ := false; input_size_ := 16 |}.

(** [ModelLoader::load]: the returned flag and the object afterwards.
    ([model_.eval()] switches the module to inference mode and has no
    part in the model.) *)
Definition load (ml : ModelLoader) : M (bool * ModelLoader) :=
  try_catch
    (cout ("Loading TorchScript model from: " ++ model_path_ ml) ;;;
     emit (EvJitLoad (model_path_ ml)) ;;;
     md <- lift (jit_load (model_path_ ml)) ;;
     let ml1 := {| model_path_ := model_path_ ml; model_ := md;
                   loaded_ := true; input_size_ := input_size_ ml |} in
     cout "Model loaded successfully!" ;;;
     ret (true, ml1))
    (fun e =>
       cerr ("Error loading model: " ++ what e) ;;;
       ret (false, {| model_path_ := model_path_ ml; model_ := model_ ml;
                      loaded_ := false; input_size_ := input_size_ ml |})).

Definition is_loaded (ml : ModelLoader) : bool := loaded_ ml.

Definition get_input_size (ml : ModelLoader) : Z := input_size_ ml.

Definition toGenericDict (v : IValue) : outcome (list (IValue * IValue)) :=
  match v with
  | IV_GenericDict items => Ok items
  | _ => Throw (c10_Error "Expected GenericDict")
  end.

Definition toStringRef (v : IValue) : outcome string :=
  match v with
  | IV_String s => Ok s
  | _ => Throw (c10_Error "Expected String")
  end.

Definition toTensor (v : IValue) : outcome Tensor :=
  match v with
  | IV_Tensor t => Ok t
  | _ => Throw (c10_Error "Expected Tensor")
  end.

(** The loop of [predict] copying the module's dictionary. *)
Fixpoint convert_items (items : list (IValue * IValue)) (result : Dict)
  : outcome Dict :=
  match items with
  | [] => Ok result
  | (k, v) :: rest =>
      obind (toStringRef k) (fun key =>
      obind (toTensor v) (fun value =>
      convert_items rest (dict_insert key value result)))
  end.

(** [ModelLoader::predict] *)
Definition predict (ml : ModelLoader) (input_tensor : Tensor) : M Dict :=
  emit (EvPredict input_tensor) ;;;
  if negb (loaded_ ml) then throw (runtime_error "Model not loaded")
  else
    try_catch
      (emit (EvForward input_tensor) ;;;
       output <- lift (forward (model_ ml) input_tensor) ;;
       output_dict <- lift (toGenericDict output) ;;
       lift (convert_items output_dict []))
      (fun e =>
         cerr ("Error during inference: " ++ what e) ;;;
         throw e).

End Engine.

(* ================================================================== *)
(** ** inference_server.cpp: decoding, evaluation, encoding *)

(** [parse_input_json] *)
Definition parse_input_json (json_str : string) : outcome (list float) :=
  match regex_search features_regex json_str with
  | Some mt =>
      let numbers_str := group_str 1 (groups mt) in
      omap stof (sregex_all number_regex numbers_str)
  | None =>
      omap stof (sregex_all number_regex json_str)
  end.

(** [tensor.accessor<float, 2>()] checks the element type and the rank
    (the texts of libtorch's own errors are shortened). *)
Definition accessor_float_2 (t : Tensor) : outcome (Z * Z) :=
  match dtype t, sizes t with
  | kFloat, [n0; n1] => Ok (n0, n1)
  | kFloat, _ => Throw (c10_Error "TensorAccessor expected 2 dims")
  | _, _ => Throw (c10_Error "expected scalar type Float")
  end.

(** The inner loop of [outputs_to_json] over row 0; reading a column the
    tensor does not have is undefined. *)
Fixpoint row_to_json (t : Tensor) (i : nat) (count : nat) (json : string)
  : outcome string :=
  match count with
  | O => Ok json
  | S c =>
      let json := if Nat.ltb 0 i then json ++ "," else json in
      match nth_error (data t) i with
      | Some x => row_to_json t (S i) c (json ++ fixed6 x)
      | None => Undefined
      end
  end.

Fixpoint items_to_json (items : Dict) (first : bool) (json : string)
  : outcome string :=
  match items with
  | [] => Ok json
  | (key, tensor) :: rest =>
      let json := if negb first then json ++ "," else json in
      let json := json ++ dq ++ key ++ dq ++ ":[" in
      obind (accessor_float_2 tensor) (fun '(_, n1) =>
      obind (row_to_json tensor 0 (Z.to_nat n1) json) (fun json =>
      items_to_json rest false (json ++ "]")))
  end.

(** [InferenceServer::outputs_to_json] *)
Definition outputs_to_json (outputs : Dict) : outcome string :=
  obind (items_to_json outputs true "{") (fun json => Ok (json ++ "}")).

(** [torch::from_blob(data, {1, n}, torch::kFloat).clone()] *)
Definition from_blob (input_data : list float) : Tensor :=
  {| dtype := kFloat;
     sizes := [1; Z.of_nat (List.length input_data)];
     data := input_data |}.

(** [int] converted to [size_t] for the comparison with [size()]. *)
Definition to_size_t (z : Z) : Z := z mod 2 ^ 64.

(** [InferenceServer::process_inference] *)
Definition process_inference (ml : ModelLoader) (input_data : list float)
  : M string :=
  let size := Z.of_nat (List.length input_data) in
  if negb (size =? to_size_t (get_input_size ml)) then
    throw (runtime_error
             ("Input size mismatch. Expected "
              ++ string_of_Z (get_input_size ml)
              ++ " but got " ++ string_of_Z size))
  else
    let input_tensor := from_blob input_data in
    outputs <- predict ml input_tensor ;;
    lift (outputs_to_json outputs).

(* ================================================================== *)
(** ** inference_server.cpp: one connection *)

(** What [recv] delivers: bytes from the peer, an orderly close, or an
    error. *)
Inductive recv_result : Type :=
| RecvBytes (bytes : string)
| RecvClosed
| RecvError.

(** The characters up to the first NUL, as [std::string(const char* )] reads. *)
Fixpoint c_string (s : string) : string :=
  match s with
  | String a s' =>
      if Ascii.eqb a "000"%char then EmptyString else String a (c_string s')
  | EmptyString => EmptyString
  end.

Fixpoint sdrop (n : nat) (s : string) : string :=
  match n, s with
  | S n', String _ s' => sdrop n' s'
  | _, _ => s
  end.

(** [s.find(pat)] followed by [s.substr(pos + pat.length())]: the text
    after the first occurrence of [pat], if there is one. *)
Fixpoint find_after (pat s : string) : option string :=
  if String.prefix pat s then Some (sdrop (slen pat) s)
  else match s with
       | String _ s' => find_after pat s'
       | EmptyString => None
       end.

Definition http_ok (response : string) : string :=
  "HTTP/1.1 200 OK" ++ CRLF
  ++ "Content-Type: application/json" ++ CRLF
  ++ "Content-Length: " ++ string_of_Z (Z.of_nat (slen response)) ++ CRLF
  ++ "Access-Control-Allow-Origin: *" ++ CRLF
  ++ CRLF
  ++ response.

Definition error_body (msg : string) : string :=
  "{" ++ dq ++ "error" ++ dq ++ ": " ++ dq ++ msg ++ dq ++ "}".

Definition http_error (error_response : string) : string :=
  "HTTP/1.1 500 Internal Server Error" ++ CRLF
  ++ "Content-Type: application/json" ++ CRLF
  ++ "Content-Length: " ++ string_of_Z (Z.of_nat (slen error_response))
  ++ CRLF
  ++ CRLF
  ++ error_response.

(** Lines 109-117 of [handle_client]: the text after the first blank line
    of an HTTP request, or the whole request when there is none. *)
Definition extract_body (request : string) : string :=
  match find_after (CRLF ++ CRLF) request with
  | Some body => body
  | None => request
  end.

(** [InferenceServer::handle_client]; [rx] is what [recv] returns on the
    socket (at most [sizeof(buffer) - 1] bytes are taken). *)
Definition handle_client (ml : ModelLoader) (client_socket : Z)
    (rx : recv_result) : M unit :=
  let buffer :=
    match rx with
    | RecvBytes bytes => stake 4095 bytes
    | _ => EmptyString
    end in
  let bytes_read :=
    match rx with
    | RecvBytes _ => Z.of_nat (slen buffer)
    | RecvClosed => 0
    | RecvError => -1
    end in
  if bytes_read <=? 0 then emit (EvClose client_socket)
  else
    try_catch
      (let request := c_string buffer in
       cout ("Received request: " ++ stake 100 request ++ "...") ;;;
       let json_body := extract_body request in
       input_data <- lift (parse_input_json json_body) ;;
       response <- process_inference ml input_data ;;
       emit (EvSend client_socket (http_ok response)))
      (fun e =>
         cerr ("Error handling client: " ++ what e) ;;;
         let error_response := error_body (what e) in
         emit (EvSend client_socket (http_error error_response)))
    ;;; emit (EvClose client_socket).

(* ================================================================== *)
(** ** inference_server.cpp: the server object and its accept loop *)

Record InferenceServer : Type := {
  model_loader_ : ModelLoader;
  port_ : Z;
  running_ : bool
}.

(** [InferenceServer::InferenceServer] *)
Definition InferenceServer_new (model_path : string) (port : Z)
  : InferenceServer :=
  {| model_loader_ := ModelLoader_new model_path; port_ := port;
     running_ := false |}.

(** [InferenceServer::initialize] *)
Definition initialize (jit_load : string -> outcome Module)
    (srv : InferenceServer) : M (bool * InferenceServer) :=
  cout "Initializing inference server..." ;;;
  r <- load jit_load (model_loader_ srv) ;;
  let srv1 := {| model_loader_ := snd r; port_ := port_ srv;
                 running_ := running_ srv |} in
  if negb (fst r) then
    cerr "Failed to load model" ;;; ret (false, srv1)
  else
    cout ("Server initialized successfully on port "
          ++ string_of_Z (port_ srv)) ;;;
    ret (true, srv1).

(** Where the thread inside [run] is: about to test the [while]
    condition, blocked in [accept], or past the loop. *)
Inductive loop_pc : Type := AtWhile | InAccept | Exited.

(** The loop thread and its trace, with the shared flag [running_]. *)
Record loop_state : Type := {
  running : bool;
  pc : loop_pc;
  out : list event
}.

(** What can happen next: another thread calls [stop()], the loop thread
    evaluates the [while] condition, or the pending [accept] returns.  Each
    of these reads or writes the atomic [running_] at most once. *)
Inductive sched : Type :=
| StopCalled
| LoopStep
| AcceptReturns (client_socket : Z).

(** [InferenceServer::stop] *)
Definition stop (st : loop_state) : loop_state :=
  {| running := false; pc := pc st; out := out st |}.

Definition say (st : loop_state) (evs : list event) (p : loop_pc)
  : loop_state :=
  {| running := running st; pc := p; out := (out st ++ evs)%list |}.

(** One step of the loop of [run] (lines 68-86) against the schedule. *)
Definition loop_step (server_socket : Z) (st : loop_state) (ev : sched)
  : loop_state :=
  match ev, pc st with
  | StopCalled, _ => stop st
  | LoopStep, AtWhile =>
      if running st then say st [] InAccept
      else say st [EvClose server_socket; EvCout "Server stopped"] Exited
  | AcceptReturns client_socket, InAccept =>
      if client_socket <? 0 then
        if running st
        then say st [EvCerr "Error accepting connection"] AtWhile
        else say st [] AtWhile
      else say st [EvThread client_socket] AtWhile
  | _, _ => st
  end.

Definition accept_loop (server_socket : Z) (sch : list sched)
    (st : loop_state) : loop_state :=
  fold_left (loop_step server_socket) sch st.

(** The connections handed to a handler thread, in order. *)
Fixpoint dispatched (t : list event) : list Z :=
  match t with
  | [] => []
  | EvThread fd :: rest => fd :: dispatched rest
  | _ :: rest => dispatched rest
  end.

(** The loop of [run] right after [listen] succeeded. *)
Definition listening : loop_state :=
  {| running := true; pc := AtWhile; out := [] |}.

(** What the socket calls at the start of [run] return. *)
Record NetEnv : Type := {
  socket_result : Z;
  bind_result : Z;
  listen_result : Z
}.

(** [InferenceServer::run].  The flag in the result says whether [run]
    has returned by the end of the schedule [sch]. *)
Definition run (net : NetEnv) (sch : list sched) (srv : InferenceServer)
  : M (bool * InferenceServer) :=
  let srv := {| model_loader_ := model_loader_ srv; port_ := port_ srv;
                running_ := true |} in
  let server_socket := socket_result net in
  if server_socket <? 0 then
    cerr "Error creating socket" ;;; ret (true, srv)
  else if bind_result net <? 0 then
    cerr "Error binding socket" ;;;
    emit (EvClose server_socket) ;;; ret (true, srv)
  else if listen_result net <? 0 then
    cerr "Error listening on socket" ;;;
    emit (EvClose server_socket) ;;; ret (true, srv)
  else
    cout ("Server listening on port " ++ string_of_Z (port_ srv)) ;;;
    let st := accept_loop server_socket sch listening in
    (Ok (match pc st with Exited => true | _ => false end,
         {| model_loader_ := model_loader_ srv; port_ := port_ srv;
            running_ := running st |}),
     out st).

(* ================================================================== *)
(** ** main.cpp, from the argument check on (lines 47-86)

    [accepts] are the results of the successive [accept] calls while
    [main] sits in [run].  The result is the exit status, or [None] while
    the server is still in its loop.  (A signal ends the process through
    [exit(0)] in [signal_handler]; signals are not part of this model.) *)

Definition serve_schedule (accepts : list Z) : list sched :=
  flat_map (fun r => [LoopStep; AcceptReturns r]) accepts.

Definition main (jit_load : string -> outcome Module) (net : NetEnv)
    (accepts : list Z) (model_path : string) (port : Z) : M (option Z) :=
  if ((port <=? 0) || (65535 <? port))%bool then
    cerr ("Invalid port number: " ++ string_of_Z port) ;;; ret (Some 1)
  else
    cout "=== Financial AI Inference Server ===" ;;;
    cout ("Model: " ++ model_path) ;;;
    cout ("Port: " ++ string_of_Z port) ;;;
    cout "=====================================" ;;;
    try_catch
      (let server := InferenceServer_new model_path port in
       r <- initialize jit_load server ;;
       if negb (fst r) then
         cerr "Failed to initialize server" ;;; ret (Some 1)
       else
         cout (LF ++ "Server started successfully!") ;;;
         cout ("To test the server, send a POST request to http://localhost:"
               ++ string_of_Z port) ;;;
         cout ("Example payload: {" ++ dq ++ "features" ++ dq
               ++ ": [1.0, 2.0, 3.0, ...]}") ;;;
         cout (LF ++ "Press Ctrl+C to stop the server." ++ LF) ;;;
         r' <- run net (serve_schedule accepts) (snd r) ;;
         ret (if fst r' then Some 0 else None))
      (fun e => cerr ("Server error: " ++ what e) ;;; ret (Some 1)).

(* ================================================================== *)
(** ** Vocabulary of the properties *)

(** Every character of [w] is in the class [c]. *)
Fixpoint all_in (c : cclass) (w : string) : bool :=
  match w with
  | EmptyString => true
  | String a w' => (in_class c a && all_in c w')%bool
  end.

(** The words a pattern denotes, independently of any search strategy. *)
Inductive matches : regex -> string -> Prop :=
| M_Eps : matches Eps EmptyString
| M_Chr c a : in_class c a = true -> matches (Chr c) (String a EmptyString)
| M_Star c w : all_in c w = true -> matches (Star c) w
| M_Plus c w : w <> EmptyString -> all_in c w = true -> matches (Plus c) w
| M_OptNone r : matches (Opt r) EmptyString
| M_OptSome r w : matches r w -> matches (Opt r) w
| M_Cat r1 r2 w1 w2 :
    matches r1 w1 -> matches r2 w2 -> matches (Cat r1 r2) (w1 ++ w2)
| M_Group i r w : matches r w -> matches (Group i r) w.

Fixpoint has_digit (s : string) : bool :=
  match s with
  | EmptyString => false
  | String a s' => (is_digit a || has_digit s')%bool
  end.

(** The numeric tokens of a text: the successive matches of
    [number_regex], as both loops of [parse_input_json] collect them. *)
Definition numeric_tokens (s : string) : list string :=
  sregex_all number_regex s.

(** [toks] lie in [s] from left to right without overlapping, each is a
    word of the numeric pattern, and no digit is left between them. *)
Inductive tokens_in_order : string -> list string -> Prop :=
| TO_end gap : has_digit gap = false -> tokens_in_order gap []
| TO_token gap tok rest toks :
    has_digit gap = false ->
    matches number_regex tok ->
    tokens_in_order rest toks ->
    tokens_in_order (gap ++ tok ++ rest) (tok :: toks).

(** [s] holds, after [pre], the key ["features"], a colon and a bracketed
    list whose text up to the first closing bracket is [body]. *)
Definition field_with_list (s pre body post : string) : Prop :=
  exists ws1 ws2,
    s = pre ++ features_key ++ ws1 ++ ":" ++ ws2 ++ "[" ++ body ++ "]" ++ post
    /\ all_in CSpace ws1 = true /\ all_in CSpace ws2 = true
    /\ all_in (CNoneOf ["]"%char]) body = true.

(** The same with at least one character between the brackets. *)
Definition features_field (s pre body post : string) : Prop :=
  field_with_list s pre body post /\ body <> EmptyString.

(** The tokens [parse_input_json] converts: those of the list of the
    leftmost match of the features pattern, or else those of the whole
    text. *)
Definition decode_tokens (s : string) : list string :=
  match regex_search features_regex s with
  | Some mt => numeric_tokens (group_str 1 (groups mt))
  | None => numeric_tokens s
  end.

(** Number of positions of [s] at which [pat] occurs. *)
Fixpoint occurrences (pat s : string) : nat :=
  ((if String.prefix pat s then 1 else 0)
   + match s with
     | String _ s' => occurrences pat s'
     | EmptyString => 0
     end)%nat.

Definition contains (pat s : string) : bool :=
  match find_after pat s with
  | Some _ => true
  | None => false
  end.

(** The calls into the prediction engine recorded in a trace. *)
Fixpoint engine_calls (t : list event) : list Tensor :=
  match t with
  | [] => []
  | EvPredict x :: rest => x :: engine_calls rest
  | EvForward x :: rest => x :: engine_calls rest
  | _ :: rest => engine_calls rest
  end.

(** What a trace wrote to client sockets. *)
Fixpoint sent (t : list event) : list (Z * string) :=
  match t with
  | [] => []
  | EvSend fd bytes :: rest => (fd, bytes) :: sent rest
  | _ :: rest => sent rest
  end.

(** A [PredictionResult] (names with their value sequences) as the
    dictionary of [1 x n] float tensors the engine hands over. *)
Definition tensor_of_row (xs : list float) : Tensor := from_blob xs.

Definition dict_of_result (r : list (string * list float)) : Dict :=
  map (fun kv => (fst kv, tensor_of_row (snd kv))) r.

Definition encode_entry (kv : string * list float) : string :=
  dq ++ fst kv ++ dq ++ ":[" ++ String.concat "," (map fixed6 (snd kv)) ++ "]".


(** The operations a client of [ModelLoader] can issue; a [load] comes
    with what the file system gives it. *)
Inductive loader_op : Type :=
| OpLoad (file : outcome Module)
| OpPredict (input : Tensor).

Definition loader_step (ml : ModelLoader) (op : loader_op) : ModelLoader :=
  match op with
  | OpLoad file =>
      match outcome_of (load (fun _ => file) ml) with
      | Ok (_, ml') => ml'
      | _ => ml
      end
  | OpPredict _ => ml
  end.

(** The message of the width check in [process_inference]. *)
Definition mismatch_message (expected actual : Z) : string :=
  "Input size mismatch. Expected " ++ string_of_Z expected
  ++ " but got " ++ string_of_Z actual.

(** Concrete inputs of the scenarios. *)

Definition payload_two : string :=
  "{" ++ features_key ++ ": [1.0,2.0]}".

Definition payload_empty_object : string := "{}".

Definition payload_empty_list : string :=
  "{" ++ features_key ++ ": [], " ++ dq ++ "id" ++ dq ++ ": 7}".

Definition payload_huge : string := "[1e999]".

(** A loaded engine handle that reports the width [n]. *)
Definition loader_width (n : Z) : ModelLoader :=
  {| model_path_ := "financial_model.pt"; model_ := empty_module;
     loaded_ := true; input_size_ := n |}.

(** A module whose [forward] returns an empty dictionary. *)
Definition trivial_module : Module :=
  {| forward := fun _ => Ok (IV_GenericDict []) |}.

Definition port_in_use : NetEnv :=
  {| socket_result := 3; bind_result := -1; listen_result := 0 |}.

(** The floats nearest to 0.42, 1, 2 and 7. *)
Definition float_042 : float := FFinite false 14092861 (-25).
Definition float_1 : float := FFinite false 8388608 (-23).
Definition float_2 : float := FFinite false 8388608 (-22).
Definition float_7 : float := FFinite false 14680064 (-21).

(** [r] is empty or starts with a character outside [c]: a greedy run of
    [c] stops here. *)
Definition stops (c : cclass) (r : string) : bool :=
  match r with
  | EmptyString => true
  | String a _ => negb (in_class c a)
  end.

Definition not_rbracket : cclass := CNoneOf ["]"%char].

(** The text of a features field from the key on. *)
Definition field_text (ws1 ws2 body post : string) : string :=
  features_key ++ ws1 ++ ":" ++ ws2 ++ "[" ++ body ++ "]" ++ post.

(** Accept calls in progress: each can still hand over one connection. *)
Definition pending (st : loop_state) : nat :=
  match pc st with
  | InAccept => 1
  | _ => 0
  end.

(** [, x1, x2 ...]: every element with a comma before it. *)
Fixpoint comma_before (l : list string) : string :=
  match l with
  | [] => ""
  | x :: rest => "," ++ x ++ comma_before rest
  end.

Ltac inv H := inversion H; subst; clear H.
Ltac inv_cat :=
  repeat match goal with
         | H : matches (Cat _ _) _ |- _ => inv H
         end.

(* ================================================================== *)
(** ** main.cpp: the argument loop (lines 17-45) and the whole of [main] *)

(** [print_usage] *)
Definition print_usage (program_name : string) : M unit :=
  cout ("Usage: " ++ program_name ++ " [options]") ;;;
  cout "Options:" ;;;
  cout "  --model <path>    Path to TorchScript model file (default: financial_model.pt)" ;;;
  cout "  --port <port>     Port to listen on (default: 8888)" ;;;
  cout "  --help            Show this help message".

(** [std::atoi]: leading white space, an optional sign and the longest run
    of decimal digits; 0 when there is no digit.  A value that does not
    fit [int] has no defined behaviour (C11 7.22.1p1). *)
Definition atoi (s : string) : outcome Z :=
  let '(_, s0) := span is_space s in
  let '(neg, s1) := take_sign s0 in
  let '(ds, _) := span is_digit s1 in
  let v := if neg then - digits_value 0 ds else digits_value 0 ds in
  if ((- 2 ^ 31 <=? v) && (v <? 2 ^ 31))%bool then Ok v else Undefined.

(** The loop of [main] over [argv[1]], [argv[2]], ...: the exit status
    when [main] returns from inside the loop, or the model path and the
    port it ends with. *)
Fixpoint parse_arguments (program_name : string) (args : list string)
    (model_path : string) (port : Z) : M (Z + string * Z) :=
  let unknown (arg : string) : M (Z + string * Z) :=
    cerr ("Unknown argument: " ++ arg) ;;;
    print_usage program_name ;;; ret (inl 1) in
  match args with
  | [] => ret (inr (model_path, port))
  | arg :: rest =>
      if (String.eqb arg "--help" || String.eqb arg "-h")%bool then
        print_usage program_name ;;; ret (inl 0)
      else
        match rest with
        | value :: rest' =>
            if String.eqb arg "--model" then
              parse_arguments program_name rest' value port
            else if String.eqb arg "--port" then
              p <- lift (atoi value) ;;
              parse_arguments program_name rest' model_path p
            else unknown arg
        | [] => unknown arg
        end
  end.

(** [main] from its first line: the argument loop, then the rest. *)
Definition main_argv (jit_load : string -> outcome Module) (net : NetEnv)
    (accepts : list Z) (program_name : string) (args : list string)
  : M (option Z) :=
  r <- parse_arguments program_name args "financial_model.pt" 8888 ;;
  match r with
  | inl status => ret (Some status)
  | inr (model_path, port) => main jit_load net accepts model_path port
  end.

(* ================================================================== *)
(** ** Vocabulary of the further properties *)

(** The sockets a trace closes. *)
Fixpoint closes (t : list event) : list Z :=
  match t with
  | [] => []
  | EvClose fd :: rest => fd :: closes rest
  | _ :: rest => closes rest
  end.

(** The inputs handed to the module's [forward]. *)
Fixpoint forward_calls (t : list event) : list Tensor :=
  match t with
  | [] => []
  | EvForward x :: rest => x :: forward_calls rest
  | _ :: rest => forward_calls rest
  end.

(** The texts written to the error stream. *)
Fixpoint errors_logged (t : list event) : list string :=
  match t with
  | [] => []
  | EvCerr text :: rest => text :: errors_logged rest
  | _ :: rest => errors_logged rest
  end.

(** The files [torch::jit::load] was asked for. *)
Fixpoint files_loaded (t : list event) : list string :=
  match t with
  | [] => []
  | EvJitLoad path :: rest => path :: files_loaded rest
  | _ :: rest => files_loaded rest
  end.

(** A prediction result as the value a script module returns for it. *)
Definition ivalue_of_result (r : list (string * list float)) : IValue :=
  IV_GenericDict
    (map (fun kv => (IV_String (fst kv), IV_Tensor (tensor_of_row (snd kv)))) r).

(** [pat] occurs in [s] at one of the first [n] positions. *)
Fixpoint occurs_before (pat s : string) (n : nat) : bool :=
  match n with
  | O => false
  | S n' =>
      (String.prefix pat s
       || match s with
          | String _ s' => occurs_before pat s' n'
          | EmptyString => false
          end)%bool
  end.

(** A character that can neither start nor continue a numeric token. *)
Definition is_sep (a : ascii) : bool :=
  negb (is_digit a
        || ascii_in a ["."%char; "e"%char; "E"%char; "+"%char; "-"%char]).

Fixpoint all_sep (s : string) : bool :=
  match s with
  | EmptyString => true
  | String a s' => (is_sep a && all_sep s')%bool
  end.

(** The text after a token ends the token: nothing, or a separator. *)
Definition token_stop (t : string) : bool :=
  match t with
  | EmptyString => true
  | String a _ => is_sep a
  end.

(** One or more digits. *)
Definition digits1 (d : string) : Prop :=
  d <> EmptyString /\ all_in digit d = true.

Definition sign_part (sg : string) : Prop :=
  sg = EmptyString \/ sg = "-" \/ sg = "+".

Definition frac_part (fr : string) : Prop :=
  fr = EmptyString \/ exists d, fr = "." ++ d /\ digits1 d.

Definition exp_part (ex : string) : Prop :=
  ex = EmptyString
  \/ exists c sg d,
       ex = String c (sg ++ d)
       /\ ascii_in c ["e"%char; "E"%char] = true
       /\ sign_part sg /\ digits1 d.

(** A number as JSON writes it (a leading [+] and leading zeros allowed):
    sign, integer digits, optional fraction, optional exponent. *)
Definition number_word (w : string) : Prop :=
  exists sg ip fr ex,
    w = sg ++ ip ++ fr ++ ex
    /\ sign_part sg /\ digits1 ip /\ frac_part fr /\ exp_part ex.

(** Words, each followed by its separator. *)
Fixpoint list_text (ws : list (string * string)) : string :=
  match ws with
  | [] => EmptyString
  | (w, sep) :: rest => w ++ sep ++ list_text rest
  end.

(** Every separator is made of separator characters, and only the last
    one may be empty. *)
Fixpoint well_separated (ws : list (string * string)) : Prop :=
  match ws with
  | [] => True
  | (w, sep) :: rest =>
      number_word w /\ all_sep sep = true
      /\ (rest <> [] -> sep <> EmptyString) /\ well_separated rest
  end.

(** A request in the shape [main] prints as its example, with sixteen
    features, and the vector it decodes to. *)
Definition payload_sixteen : string :=
  "{" ++ features_key ++ ": [1, 2, 3, 4, 5, 6, 7, 8, 9, 10, 11, 12, 13, 14, 15, 16]}".

Definition features_sixteen : list float :=
  Eval vm_compute in
    match parse_input_json payload_sixteen with
    | Ok v => v
    | _ => []
    end.

(** A module that fails in [forward], and one that reports a score. *)
Definition failing_module : Module :=
  {| forward := fun _ => Throw (c10_Error "shape mismatch") |}.

Definition score_module : Module :=
  {| forward := fun _ => Ok (ivalue_of_result [("score", [float_042])]) |}.

Definition loader_with (md : Module) (n : Z) : ModelLoader :=
  {| model_path_ := "financial_model.pt"; model_ := md;
     loaded_ := true; input_size_ := n |}.

Definition payload_three : string :=
  "{" ++ features_key ++ ": [1.0,2.0,3.0]}".

(** What [handle_client] does once the body of the request is extracted
    (lines 119-147): decode, evaluate, respond or report, close. *)
Definition serve_body (ml : ModelLoader) (client_socket : Z)
    (json_body : string) : M unit :=
  try_catch
    (input_data <- lift (parse_input_json json_body) ;;
     response <- process_inference ml input_data ;;
     emit (EvSend client_socket (http_ok response)))
    (fun e =>
       cerr ("Error handling client: " ++ what e) ;;;
       let error_response := error_body (what e) in
       emit (EvSend client_socket (http_error error_response)))
  ;;; emit (EvClose client_socket).

Fixpoint has_nul (s : string) : bool :=
  match s with
  | EmptyString => false
  | String a s' => (Ascii.eqb a "000"%char || has_nul s')%bool
  end.

Definition NUL : string := String "000"%char EmptyString.

(** A framed request and a request holding a NUL byte. *)
Definition request_framed : string :=
  "POST / HTTP/1.1" ++ CRLF ++ "Host: localhost" ++ CRLF ++ CRLF
  ++ payload_two.

Definition request_with_nul : string :=
  payload_two ++ NUL ++ "[1,2,3]".

(** The number of columns of a matrix and its first row. *)
Definition columns (t : Tensor) : nat :=
  match sizes t with
  | [_; n1] => Z.to_nat n1
  | _ => O
  end.

Definition first_row (t : Tensor) : list float :=
  firstn (columns t) (data t).

Definition is_float_matrix (t : Tensor) : bool :=
  match dtype t, sizes t with
  | kFloat, [_; _] => true
  | _, _ => false
  end.

(** A float matrix whose first row is there. *)
Definition has_first_row (t : Tensor) : bool :=
  (is_float_matrix t && Nat.leb (columns t) (List.length (data t)))%bool.

(** Two rows of two columns. *)
Definition batch_of_two : Tensor :=
  {| dtype := kFloat; sizes := [2; 2];
     data := [float_1; float_2; float_7; float_042] |}.

(** No row, three columns. *)
Definition empty_batch : Tensor :=
  {| dtype := kFloat; sizes := [0; 3]; data := [] |}.

(** Socket calls that all succeed, and ones that fail at [socket] or at
    [listen]. *)
Definition net_ready : NetEnv :=
  {| socket_result := 3; bind_result := 0; listen_result := 0 |}.

Definition no_socket : NetEnv :=
  {| socket_result := -1; bind_result := 0; listen_result := 0 |}.

Definition no_listen : NetEnv :=
  {| socket_result := 3; bind_result := 0; listen_result := -1 |}.

Definition accepted (accepts : list Z) : list Z :=
  filter (fun r => 0 <=? r) accepts.

Definition accept_failures (accepts : list Z) : list Z :=
  filter (fun r => r <? 0) accepts.

(** What [main] has written and done when it calls [run]. *)
Definition startup_banner (model_path : string) (port : Z) : list event :=
  [EvCout "=== Financial AI Inference Server ===";
   EvCout ("Model: " ++ model_path);
   EvCout ("Port: " ++ string_of_Z port);
   EvCout "=====================================";
   EvCout "Initializing inference server...";
   EvCout ("Loading TorchScript model from: " ++ model_path);
   EvJitLoad model_path;
   EvCout "Model loaded successfully!";
   EvCout ("Server initialized successfully on port " ++ string_of_Z port);
   EvCout (LF ++ "Server started successfully!");
   EvCout ("To test the server, send a POST request to http://localhost:"
           ++ string_of_Z port);
   EvCout ("Example payload: {" ++ dq ++ "features" ++ dq
           ++ ": [1.0, 2.0, 3.0, ...]}");
   EvCout (LF ++ "Press Ctrl+C to stop the server." ++ LF)].

(** Whether the most recent [load] of a run of operations succeeded, and
    the module of the most recent successful one. *)
Fixpoint loaded_after (ops : list loader_op) (loaded : bool) : bool :=
  match ops with
  | [] => loaded
  | OpLoad (Ok _) :: rest => loaded_after rest true
  | OpLoad (Throw _) :: rest => loaded_after rest false
  | _ :: rest => loaded_after rest loaded
  end.

Fixpoint module_after (ops : list loader_op) (md : Module) : Module :=
  match ops with
  | [] => md
  | OpLoad (Ok md') :: rest => module_after rest md'
  | _ :: rest => module_after rest md
  end.

(** The options of the command line, and the arguments that spell them. *)
Inductive cli_option : Type :=
| SetModel (path : string)
| SetPort (text : string).

Definition option_args (o : cli_option) : list string :=
  match o with
  | SetModel path => ["--model"; path]
  | SetPort text => ["--port"; text]
  end.

Definition cli_args (opts : list cli_option) : list string :=
  flat_map option_args opts.

(** The settings a sequence of options leaves: each option replaces the
    value before it. *)
Fixpoint settings (opts : list cli_option) (model_path : string) (port : Z)
  : outcome (string * Z) :=
  match opts with
  | [] => Ok (model_path, port)
  | SetModel path :: rest => settings rest path port
  | SetPort text :: rest =>
      obind (atoi text) (fun p => settings rest model_path p)
  end.

Definition is_help (arg : string) : bool :=
  (String.eqb arg "--help" || String.eqb arg "-h")%bool.

(** A request that fills the handler's buffer: a payload padded with
    spaces to 4095 bytes. *)
Fixpoint spaces (n : nat) : string :=
  match n with
  | O => EmptyString
  | S n' => String " "%char (spaces n')
  end.

Definition request_of_4095 : string :=
  payload_two ++ spaces (4095 - slen payload_two).

(** Any character but the double quote. *)
Definition no_quote : cclass := CNoneOf ["034"%char].

(** A list of two numbers and a bare array of three. *)
Definition words_two : list (string * string) :=
  [("1.0", ","); ("2.0", "")].

Definition words_three : list (string * string) :=
  [("1", ", "); ("-2.5e1", ", "); ("+3", "]")].





(** Two features keys, the first with an empty list. *)
Definition payload_two_fields : string :=
  "{" ++ features_key ++ ": [], " ++ features_key ++ ": [1], "
  ++ dq ++ "id" ++ dq ++ ": 7}".

(** Evaluating the vector [v] leaves defined behaviour: the width is the
    expected one, the model is loaded, and either the module's [forward]
    does so itself or the encoder reads outside a tensor of the result. *)
Definition evaluation_undefined (ml : ModelLoader) (v : list float) : Prop :=
  Z.of_nat (List.length v) = to_size_t (get_input_size ml)
  /\ is_loaded ml = true
  /\ (forward (model_ ml) (from_blob v) = Undefined
      \/ exists outputs,
           outcome_of (predict ml (from_blob v)) = Ok outputs
           /\ outputs_to_json outputs = Undefined).

(* ================================================================== *)
(** * Properties *)

(** ** Strings *)

Lemma sapp_assoc (a b c : string) : (a ++ b) ++ c = a ++ (b ++ c).
Proof. induction a as [|x a IH]; simpl; [reflexivity | now rewrite IH]. Qed.

Lemma sapp_nil_r (a : string) : a ++ "" = a.
Proof. induction a as [|x a IH]; simpl; [reflexivity | now rewrite IH]. Qed.

Lemma slen_app (a b : string) : slen (a ++ b) = (slen a + slen b)%nat.
Proof. induction a as [|x a IH]; simpl; [reflexivity | now rewrite IH]. Qed.

Lemma stake_app (w r : string) : stake (slen w) (w ++ r) = w.
Proof. induction w as [|x w IH]; simpl; [now destruct r | now rewrite IH]. Qed.

Lemma consumed_app (w r : string) : consumed (w ++ r) r = w.
Proof.
  unfold consumed. rewrite slen_app.
  replace (slen w + slen r - slen r)%nat with (slen w) by lia.
  apply stake_app.
Qed.

Lemma has_digit_app (a b : string) :
  has_digit (a ++ b) = (has_digit a || has_digit b)%bool.
Proof.
  induction a as [|x a IH]; simpl; [reflexivity|].
  now rewrite IH, orb_assoc.
Qed.

Lemma all_in_app (c : cclass) (a b : string) :
  all_in c (a ++ b) = (all_in c a && all_in c b)%bool.
Proof.
  induction a as [|x a IH]; simpl; [reflexivity|].
  now rewrite IH, andb_assoc.
Qed.

(** ** The matcher against the words of a pattern *)

Section EngineFacts.
Context {R : Type}.
Implicit Types (k : string -> option R) (K : string -> caps -> option R).

Lemma star_k_sound c k s x :
  star_k c k s = Some x ->
  exists w s', s = w ++ s' /\ all_in c w = true /\ k s' = Some x.
Proof.
  induction s as [|a s IH]; simpl.
  - intros H. exists "", "". auto.
  - destruct (in_class c a) eqn:Ha.
    + destruct (star_k c k s) as [y|] eqn:Hs.
      * intros [= <-]. destruct (IH eq_refl) as (w & s' & -> & Hw & Hk).
        exists (String a w), s'. simpl. rewrite Ha, Hw. auto.
      * intros H. exists "", (String a s). auto.
    + intros H. exists "", (String a s). auto.
Qed.

(** The continuation at the current position is the last resort. *)
Lemma star_k_last_resort c k s : k s <> None -> star_k c k s <> None.
Proof.
  destruct s as [|a s]; simpl; [auto|].
  destruct (in_class c a); [|auto].
  destruct (star_k c k s); [discriminate | auto].
Qed.

(** The longest run is tried first. *)
Lemma star_k_greedy c k l r x :
  all_in c l = true -> stops c r = true -> k r = Some x ->
  star_k c k (l ++ r) = Some x.
Proof.
  intros Hl Hr Hk. induction l as [|a l IH]; simpl in *.
  - destruct r as [|b r]; simpl in *; [assumption|].
    apply negb_true_iff in Hr. now rewrite Hr.
  - apply andb_true_iff in Hl as [Ha Hl]. now rewrite Ha, (IH Hl).
Qed.

(** A run fails when the continuation fails after each of its prefixes. *)
Lemma star_k_fails c k s :
  (forall w s', s = w ++ s' -> all_in c w = true -> k s' = None) ->
  star_k c k s = None.
Proof.
  induction s as [|a s IH]; intros H; simpl.
  - apply (H "" ""); reflexivity.
  - destruct (in_class c a) eqn:Ha.
    + rewrite IH.
      * apply (H "" (String a s)); reflexivity.
      * intros w s' -> Hw. apply (H (String a w) s'); [reflexivity|].
        simpl. now rewrite Ha.
    + apply (H "" (String a s)); reflexivity.
Qed.

Lemma m_sound r : forall s cs K x,
  m r s cs K = Some x ->
  exists w s' cs', s = w ++ s' /\ matches r w /\ K s' cs' = Some x.
Proof.
  induction r as [|c|c|c|r IH|r1 IH1 r2 IH2|i r IH]; intros s cs K x H;
    simpl in H.
  - exists "", s, cs. repeat split; [constructor | assumption].
  - destruct s as [|a s]; [discriminate|].
    destruct (in_class c a) eqn:Ha; [|discriminate].
    exists (String a ""), s, cs. repeat split; [now constructor | assumption].
  - apply star_k_sound in H as (w & s' & -> & Hw & Hk).
    exists w, s', cs. repeat split; [now constructor | assumption].
  - destruct s as [|a s]; [discriminate|].
    destruct (in_class c a) eqn:Ha; [|discriminate].
    apply star_k_sound in H as (w & s' & -> & Hw & Hk).
    exists (String a w), s', cs. repeat split; [|assumption].
    constructor; [discriminate | simpl; now rewrite Ha, Hw].
  - destruct (m r s cs K) as [y|] eqn:Hm.
    + injection H as <-. apply IH in Hm as (w & s' & cs' & -> & Hw & Hk).
      exists w, s', cs'. repeat split; [now apply M_OptSome | assumption].
    + exists "", s, cs. repeat split; [apply M_OptNone | assumption].
  - apply IH1 in H as (w1 & s1 & cs1 & -> & Hw1 & H).
    apply IH2 in H as (w2 & s2 & cs2 & -> & Hw2 & H).
    exists (w1 ++ w2), s2, cs2. rewrite sapp_assoc.
    repeat split; [now constructor | assumption].
  - apply IH in H as (w & s' & cs' & -> & Hw & H).
    exists w, s', ((i, consumed (w ++ s') s') :: cs').
    repeat split; [now constructor | assumption].
Qed.

Lemma m_lit l : forall s cs K, m (lit l) (l ++ s) cs K = K s cs.
Proof.
  induction l as [|a l IH]; intros s cs K; simpl; [reflexivity|].
  now rewrite Ascii.eqb_refl, IH.
Qed.
End EngineFacts.

Lemma match_at_sound r s rest cs :
  match_at r s = Some (rest, cs) -> exists w, s = w ++ rest /\ matches r w.
Proof.
  unfold match_at. intros H.
  apply m_sound in H as (w & s' & cs' & -> & Hw & [= -> ->]).
  now exists w.
Qed.

(** ** [regex_search]: the leftmost position that matches *)

Lemma regex_search_from_some r : forall s pre mt,
  regex_search_from r pre s = Some mt ->
  exists gap,
    prefix mt = pre ++ gap
    /\ s = gap ++ matched mt ++ suffix mt
    /\ matches r (matched mt)
    /\ match_at r (matched mt ++ suffix mt) = Some (suffix mt, groups mt)
    /\ (forall g1 g2, gap = g1 ++ g2 -> g2 <> "" ->
          match_at r (g2 ++ matched mt ++ suffix mt) = None).
Proof.
  induction s as [|a s IH]; intros pre mt; simpl.
  - destruct (match_at r "") as [[rest cs]|] eqn:Hm; [|discriminate].
    intros [= <-]. simpl.
    destruct (match_at_sound _ _ _ _ Hm) as (w & Hs & Hw).
    destruct w; [|discriminate]. simpl in Hs. subst rest.
    exists "". rewrite sapp_nil_r. cbn. repeat split; try assumption.
    intros [|] [|] ?; try discriminate. congruence.
  - destruct (match_at r (String a s)) as [[rest cs]|] eqn:Hm.
    + intros [= <-]. simpl.
      destruct (match_at_sound _ _ _ _ Hm) as (w & Hs & Hw).
      rewrite Hs, consumed_app. exists "". rewrite sapp_nil_r.
      repeat split; try assumption.
      * now rewrite <- Hs.
      * intros [|] [|] ?; try discriminate. congruence.
    + intros H. apply IH in H as (gap & Hp & Hs & Hw & Hm' & Hg).
      exists (String a gap). rewrite Hp, sapp_assoc. simpl.
      repeat split; try assumption.
      * now rewrite Hs.
      * intros [|b g1] g2 Hgap Hne; simpl in Hgap.
        -- subst g2. simpl. now rewrite <- Hs.
        -- injection Hgap as -> ->. now apply (Hg g1 g2).
Qed.

Lemma regex_search_from_none r : forall s pre,
  regex_search_from r pre s = None <->
  (forall p t, s = p ++ t -> match_at r t = None).
Proof.
  induction s as [|a s IH]; intros pre; simpl.
  - destruct (match_at r "") as [[rest cs]|] eqn:Hm.
    + split; [discriminate|]. intros H. now rewrite (H "" "") in Hm.
    + split; [|reflexivity]. intros _ [|] [|] ?; try discriminate. assumption.
  - destruct (match_at r (String a s)) as [[rest cs]|] eqn:Hm.
    + split; [discriminate|]. intros H.
      now rewrite (H "" (String a s)) in Hm.
    + rewrite IH. split.
      * intros H [|b p] t Hs; simpl in Hs.
        -- now subst t.
        -- injection Hs as -> ->. now apply (H p t).
      * intros H p t ->. now apply (H (String a p) t).
Qed.

Lemma regex_search_none r s :
  regex_search r s = None <->
  (forall p t, s = p ++ t -> match_at r t = None).
Proof. apply regex_search_from_none. Qed.

Lemma regex_search_some r s mt :
  regex_search r s = Some mt ->
  s = prefix mt ++ matched mt ++ suffix mt
  /\ matches r (matched mt)
  /\ match_at r (matched mt ++ suffix mt) = Some (suffix mt, groups mt)
  /\ (forall g1 g2, prefix mt = g1 ++ g2 -> g2 <> "" ->
        match_at r (g2 ++ matched mt ++ suffix mt) = None).
Proof.
  intros H. apply regex_search_from_some in H as (gap & Hp & Hs & Hw & Hm & Hg).
  simpl in Hp. rewrite Hp. auto.
Qed.

(** ** The numeric pattern *)

Lemma all_in_digit_has_digit w :
  w <> "" -> all_in digit w = true -> has_digit w = true.
Proof.
  destruct w as [|a w]; [congruence|]. cbn [has_digit all_in]. intros _ H.
  apply andb_true_iff in H as [Ha _].
  change (is_digit a) with (in_class digit a). now rewrite Ha.
Qed.

(** Every word of the numeric pattern holds a digit. *)
Lemma number_word_has_digit w :
  matches number_regex w -> has_digit w = true.
Proof.
  unfold number_regex. intros H.
  repeat match goal with
         | H : matches (Cat _ _) _ |- _ => inv H
         end.
  match goal with
  | H : matches (Plus _) ?u |- _ =>
      inv H; rewrite !has_digit_app, (all_in_digit_has_digit u) by assumption
  end.
  now rewrite !orb_true_r.
Qed.

Lemma number_word_nonempty w : matches number_regex w -> w <> "".
Proof. intros H%number_word_has_digit ->. discriminate. Qed.

Lemma digit_not_sign a : is_digit a = true -> in_class sign a = false.
Proof.
  intros H. unfold sign, in_class, ascii_in, existsb.
  destruct (Ascii.eqb_spec a "-"); [subst; discriminate|].
  destruct (Ascii.eqb_spec a "+"); [subst; discriminate|]. reflexivity.
Qed.

Lemma digit_not_dot a : is_digit a = true -> Ascii.eqb a "." = false.
Proof.
  intros H. destruct (Ascii.eqb_spec a "."); [subst; discriminate|].
  reflexivity.
Qed.

(** The numeric pattern matches wherever a digit stands. *)
Lemma number_matches_at_digit a s :
  is_digit a = true -> match_at number_regex (String a s) <> None.
Proof.
  intros Ha. unfold match_at, number_regex.
  cbn [m]. rewrite (digit_not_sign a Ha).
  apply star_k_last_resort.
  cbn [m in_class]. rewrite (digit_not_dot a Ha).
  change (in_class digit a) with (is_digit a). rewrite Ha.
  apply star_k_last_resort.
  match goal with |- match ?x with _ => _ end <> None => destruct x end;
    discriminate.
Qed.

Lemma no_match_no_digit s :
  (forall p t, s = p ++ t -> match_at number_regex t = None) ->
  has_digit s = false.
Proof.
  induction s as [|a s IH]; intros H; simpl; [reflexivity|].
  destruct (is_digit a) eqn:Ha.
  - exfalso. apply (number_matches_at_digit a s Ha).
    apply (H "" (String a s)). reflexivity.
  - simpl. apply IH. intros p t ->. apply (H (String a p) t). reflexivity.
Qed.

Lemma gap_no_digit gap rest :
  (forall g1 g2, gap = g1 ++ g2 -> g2 <> "" ->
     match_at number_regex (g2 ++ rest) = None) ->
  has_digit gap = false.
Proof.
  induction gap as [|a gap IH]; intros H; simpl; [reflexivity|].
  destruct (is_digit a) eqn:Ha.
  - exfalso. apply (number_matches_at_digit a (gap ++ rest) Ha).
    apply (H "" (String a gap)); [reflexivity | discriminate].
  - simpl. apply IH. intros g1 g2 -> Hne.
    apply (H (String a g1) g2); [reflexivity | assumption].
Qed.

Lemma no_digit_no_match s :
  has_digit s = false -> regex_search number_regex s = None.
Proof.
  intros Hd. apply regex_search_none. intros p t ->.
  destruct (match_at number_regex t) as [[rest cs]|] eqn:Hm; [|reflexivity].
  apply match_at_sound in Hm as (w & -> & Hw%number_word_has_digit).
  rewrite !has_digit_app, Hw in Hd. now rewrite orb_true_r in Hd.
Qed.

(** ** Iterating the search *)

Lemma slen_zero s : Nat.eqb (slen s) 0 = true <-> s = "".
Proof. destruct s; simpl; split; congruence. Qed.

(** Fuel beyond the length of the text does not change the matches. *)
Lemma sregex_iterate_fuel r : forall f1 f2 s,
  (slen s < f1)%nat -> (slen s < f2)%nat ->
  sregex_iterate f1 r s = sregex_iterate f2 r s.
Proof.
  induction f1 as [|f1 IH]; intros [|f2] s H1 H2; try lia. simpl.
  destruct (regex_search r s) as [mt|] eqn:E; [|reflexivity].
  destruct (Nat.eqb (slen (matched mt)) 0) eqn:Hz; [reflexivity|].
  f_equal. apply regex_search_some in E as (Hs & _).
  apply Nat.eqb_neq in Hz.
  apply IH; rewrite Hs, !slen_app in *; lia.
Qed.

Lemma numeric_tokens_nil s :
  numeric_tokens s = [] <-> has_digit s = false.
Proof.
  unfold numeric_tokens, sregex_all. simpl. split.
  - destruct (regex_search number_regex s) as [mt|] eqn:E.
    + apply regex_search_some in E as (_ & Hw%number_word_nonempty & _).
      destruct (Nat.eqb (slen (matched mt)) 0) eqn:Hz; [|discriminate].
      now apply slen_zero in Hz.
    + intros _. apply no_match_no_digit. now apply regex_search_none.
  - intros H. now rewrite (no_digit_no_match s H).
Qed.

Lemma sregex_iterate_in_order : forall f s,
  (slen s < f)%nat -> tokens_in_order s (sregex_iterate f number_regex s).
Proof.
  induction f as [|f IH]; intros s Hf; [lia|]. simpl.
  destruct (regex_search number_regex s) as [mt|] eqn:E.
  - apply regex_search_some in E as (Hs & Hw & _ & Hg).
    destruct (Nat.eqb (slen (matched mt)) 0) eqn:Hz.
    + apply slen_zero in Hz. now apply number_word_nonempty in Hw.
    + apply Nat.eqb_neq in Hz. rewrite Hs at 1.
      apply TO_token; [now apply gap_no_digit in Hg | assumption |].
      apply IH. rewrite Hs, !slen_app in Hf. lia.
  - apply TO_end, no_match_no_digit. now apply regex_search_none.
Qed.

Lemma numeric_tokens_in_order s : tokens_in_order s (numeric_tokens s).
Proof. apply sregex_iterate_in_order. lia. Qed.

(** ** The features pattern *)

(** A field with a non-empty list matches, and the group is the list. *)
Lemma features_match_at ws1 ws2 body post :
  all_in CSpace ws1 = true -> all_in CSpace ws2 = true ->
  all_in not_rbracket body = true -> body <> "" ->
  match_at features_regex (field_text ws1 ws2 body post)
  = Some (post, [(1%nat, body)]).
Proof.
  intros H1 H2 Hb Hne. unfold match_at, features_regex, field_text.
  cbn [m]. rewrite m_lit.
  apply star_k_greedy; [assumption | reflexivity |].
  cbn [m append in_class]. rewrite Ascii.eqb_refl.
  apply star_k_greedy; [assumption | reflexivity |].
  cbn [m append in_class]. rewrite Ascii.eqb_refl.
  destruct body as [|b body]; [congruence|].
  cbn [all_in] in Hb. apply andb_true_iff in Hb as [Hb0 Hb].
  cbn [append].
  change (negb (ascii_in b ["]"%char])) with (in_class not_rbracket b).
  rewrite Hb0.
  apply star_k_greedy; [assumption | reflexivity |].
  rewrite Ascii.eqb_refl.
  change (String b (body ++ String "]" post))
    with (String b body ++ String "]" post).
  now rewrite consumed_app.
Qed.

Lemma matches_cat_inv r1 r2 w :
  matches (Cat r1 r2) w ->
  exists w1 w2, w = w1 ++ w2 /\ matches r1 w1 /\ matches r2 w2.
Proof. intros H. inv H. eauto. Qed.

Lemma matches_lit l w : matches (lit l) w -> w = l.
Proof.
  revert w. induction l as [|a l IH]; intros w H; simpl in H.
  - now inv H.
  - inv H.
    match goal with
    | Hc : matches (Chr _) _, Hl : matches (lit _) _ |- _ =>
        inv Hc; apply IH in Hl as ->
    end.
    match goal with
    | Hc : in_class _ _ = true |- _ => simpl in Hc; apply Ascii.eqb_eq in Hc
    end.
    now subst.
Qed.

Lemma matches_chr_lit a w : matches (Chr (CLit a)) w -> w = String a "".
Proof.
  intros H. inv H.
  match goal with
  | Hc : in_class _ _ = true |- _ => simpl in Hc; apply Ascii.eqb_eq in Hc
  end.
  now subst.
Qed.

(** Whatever the features pattern matches is such a field. *)
Lemma features_match_at_inv s rest cs :
  match_at features_regex s = Some (rest, cs) ->
  exists ws1 ws2 body,
    s = field_text ws1 ws2 body rest
    /\ all_in CSpace ws1 = true /\ all_in CSpace ws2 = true
    /\ all_in not_rbracket body = true /\ body <> ""
    /\ cs = [(1%nat, body)].
Proof.
  intros Hm. destruct (match_at_sound _ _ _ _ Hm) as (w & -> & Hw).
  unfold features_regex in Hw.
  apply matches_cat_inv in Hw as (k & w1 & -> & Hk%matches_lit & Hw).
  apply matches_cat_inv in Hw as (ws1 & w2 & -> & Hs1 & Hw).
  apply matches_cat_inv in Hw as (c1 & w3 & -> & ->%matches_chr_lit & Hw).
  apply matches_cat_inv in Hw as (ws2 & w4 & -> & Hs2 & Hw).
  apply matches_cat_inv in Hw as (c2 & w5 & -> & ->%matches_chr_lit & Hw).
  apply matches_cat_inv in Hw as (body & c3 & -> & Hb & ->%matches_chr_lit).
  subst k. inv Hs1. inv Hs2. inv Hb.
  match goal with H : matches (Plus _) _ |- _ => inv H end.
  assert (E : (features_key ++ ws1 ++ ":" ++ ws2 ++ "[" ++ body ++ "]") ++ rest
              = field_text ws1 ws2 body rest)
    by (unfold field_text; now rewrite !sapp_assoc).
  rewrite E in *. exists ws1, ws2, body. repeat split; try assumption.
  erewrite features_match_at in Hm by eassumption. congruence.
Qed.

Lemma sapp_split (a b c d : string) :
  a ++ b = c ++ d -> (slen a <= slen c)%nat ->
  exists g, c = a ++ g /\ b = g ++ d.
Proof.
  revert c. induction a as [|x a IH]; intros c H Hl; simpl in *.
  - exists c. auto.
  - destruct c as [|y c]; simpl in *; [lia|].
    injection H as -> H. apply IH in H as (g & -> & ->); [|lia].
    exists g. auto.
Qed.

Lemma sapp_same_length (a b c d : string) :
  a ++ b = c ++ d -> slen a = slen c -> a = c /\ b = d.
Proof.
  intros H Hl. destruct (sapp_split a b c d H) as (g & -> & ->); [lia|].
  rewrite slen_app in Hl. destruct g; simpl in Hl; [|lia].
  now rewrite sapp_nil_r.
Qed.

Lemma features_field_text s pre body post :
  features_field s pre body post <->
  exists ws1 ws2,
    s = pre ++ field_text ws1 ws2 body post
    /\ all_in CSpace ws1 = true /\ all_in CSpace ws2 = true
    /\ all_in not_rbracket body = true /\ body <> "".
Proof.
  unfold features_field, field_with_list, field_text, not_rbracket. split.
  - intros [(ws1 & ws2 & H) Hne]. exists ws1, ws2. tauto.
  - intros (ws1 & ws2 & H). split; [exists ws1, ws2|]; tauto.
Qed.

(** A successful search found the leftmost features field. *)
Lemma search_features_some s mt :
  regex_search features_regex s = Some mt ->
  exists body,
    features_field s (prefix mt) body (suffix mt)
    /\ groups mt = [(1%nat, body)]
    /\ (forall pre' body' post', features_field s pre' body' post' ->
          (slen (prefix mt) <= slen pre')%nat).
Proof.
  intros H. apply regex_search_some in H as (Hs & _ & Hm & Hg).
  apply features_match_at_inv in Hm
    as (ws1 & ws2 & body & Ht & H1 & H2 & Hb & Hne & Hcs).
  exists body. split; [|split; [assumption|]].
  - apply features_field_text. exists ws1, ws2. rewrite <- Ht. auto.
  - intros pre' body' post' Hf.
    apply features_field_text in Hf as (v1 & v2 & Hs' & Hv1 & Hv2 & Hb' & Hne').
    destruct (Nat.le_gt_cases (slen (prefix mt)) (slen pre')) as [|Hlt];
      [assumption | exfalso].
    rewrite Hs' in Hs.
    apply sapp_split in Hs as (g & Hp & Hfield); [|lia].
    assert (g <> "").
    { intros ->. rewrite Hp, sapp_nil_r in Hlt. lia. }
    specialize (Hg pre' g Hp H). rewrite <- Hfield in Hg.
    now rewrite features_match_at in Hg.
Qed.

Lemma search_features_none s :
  regex_search features_regex s = None ->
  forall pre body post, ~ features_field s pre body post.
Proof.
  intros H pre body post Hf.
  apply features_field_text in Hf as (v1 & v2 & Hs & Hv1 & Hv2 & Hb & Hne).
  rewrite regex_search_none in H. specialize (H _ _ Hs).
  now rewrite features_match_at in H.
Qed.

Lemma decode_tokens_field s pre body post :
  features_field s pre body post ->
  (forall pre' body' post', features_field s pre' body' post' ->
     (slen pre <= slen pre')%nat) ->
  decode_tokens s = numeric_tokens body.
Proof.
  intros Hf Hleft. unfold decode_tokens.
  destruct (regex_search features_regex s) as [mt|] eqn:E.
  - pose proof E as E'. apply regex_search_some in E' as (Hs & _ & Hm & _).
    apply search_features_some in E as (body0 & Hf0 & Hg0 & Hleft0).
    specialize (Hleft _ _ _ Hf0). specialize (Hleft0 _ _ _ Hf).
    apply features_field_text in Hf as (v1 & v2 & Hs' & Hv1 & Hv2 & Hb & Hne).
    rewrite Hs' in Hs. apply sapp_same_length in Hs as [_ Hs]; [|lia].
    rewrite <- Hs, features_match_at in Hm by assumption.
    rewrite Hg0 in *. injection Hm as _ Hm. simpl. congruence.
  - now apply search_features_none with (pre := pre) (body := body)
      (post := post) in E.
Qed.

Lemma decode_tokens_no_field s :
  (forall pre body post, ~ features_field s pre body post) ->
  decode_tokens s = numeric_tokens s.
Proof.
  intros Hno. unfold decode_tokens.
  destruct (regex_search features_regex s) as [mt|] eqn:E; [|reflexivity].
  apply search_features_some in E as (body0 & Hf0 & _).
  now apply Hno in Hf0.
Qed.

Lemma parse_input_json_tokens s :
  parse_input_json s = omap stof (decode_tokens s).
Proof.
  unfold parse_input_json, decode_tokens, numeric_tokens.
  now destruct (regex_search features_regex s).
Qed.

(** ** Converting the tokens *)

Lemma omap_ok {A B} (f : A -> outcome B) l v :
  omap f l = Ok v -> Forall2 (fun x y => f x = Ok y) l v.
Proof.
  revert v. induction l as [|x l IH]; intros v; simpl.
  - intros [= <-]. constructor.
  - destruct (f x) as [y| |] eqn:Hx; simpl; try discriminate.
    destruct (omap f l) as [ys| |]; simpl; try discriminate.
    intros [= <-]. constructor; auto.
Qed.

Lemma omap_forall2 {A B} (f : A -> outcome B) l v :
  Forall2 (fun x y => f x = Ok y) l v -> omap f l = Ok v.
Proof.
  induction 1 as [|x y l v Hx _ IH]; simpl; [reflexivity|].
  now rewrite Hx, IH.
Qed.

Lemma is_digit_spec a :
  is_digit a = true <-> (48 <= nat_of_ascii a <= 57)%nat.
Proof.
  unfold is_digit, in_class.
  change (nat_of_ascii "0") with 48%nat. change (nat_of_ascii "9") with 57%nat.
  now rewrite andb_true_iff, !Nat.leb_le.
Qed.

Lemma digit_not_space a : is_digit a = true -> is_space a = false.
Proof.
  rewrite is_digit_spec. unfold is_space. intros H.
  apply orb_false_iff. split.
  - apply Nat.eqb_neq. lia.
  - apply andb_false_iff. right. apply Nat.leb_gt. lia.
Qed.

Lemma sign_cases a : in_class sign a = true -> a = "-"%char \/ a = "+"%char.
Proof.
  unfold sign, in_class, ascii_in, existsb.
  destruct (Ascii.eqb_spec a "-"); [auto|].
  destruct (Ascii.eqb_spec a "+"); [auto|]. discriminate.
Qed.

Lemma span_stop (p : ascii -> bool) a s :
  p a = false -> span p (String a s) = ("", String a s).
Proof. intros H. simpl. now rewrite H. Qed.

Lemma unsigned_decimal_digit a s :
  is_digit a = true -> unsigned_decimal (String a s) <> None.
Proof.
  intros Ha. unfold unsigned_decimal. cbn [span]. rewrite Ha.
  destruct (span is_digit s) as [l r].
  destruct r as [|c r]; [discriminate|].
  destruct (Ascii.eqb c "."); [|discriminate].
  destruct (span is_digit r). discriminate.
Qed.

Lemma unsigned_decimal_dot_digit a s :
  is_digit a = true -> unsigned_decimal (String "." (String a s)) <> None.
Proof.
  intros Ha. unfold unsigned_decimal.
  rewrite (span_stop is_digit "." _ eq_refl).
  rewrite Ascii.eqb_refl. cbn [span]. rewrite Ha.
  destruct (span is_digit s). discriminate.
Qed.

(** After its sign a numeric token starts with a digit, or with a point
    and a digit. *)
Lemma number_body_start x u :
  matches (Cat (Star digit) (Cat (Opt (Chr (CLit "."%char)))
             (Cat (Plus digit) x))) u ->
  exists a s, is_digit a = true
              /\ (u = String a s \/ u = String "." (String a s)).
Proof.
  intros H.
  apply matches_cat_inv in H as (w2 & u1 & -> & H2 & H).
  apply matches_cat_inv in H as (w3 & u2 & -> & H3 & H).
  apply matches_cat_inv in H as (w4 & w5 & -> & H4 & _).
  inv H2. inv H4.
  destruct w2 as [|a w2].
  - destruct w4 as [|b w4]; [congruence|].
    match goal with
    | Hd : all_in digit (String b w4) = true |- _ =>
        cbn [all_in] in Hd; apply andb_true_iff in Hd as [Hb _]
    end.
    exists b, (w4 ++ w5). split; [exact Hb|].
    inv H3; [now left|].
    match goal with
    | Hc : matches (Chr _) _ |- _ => apply matches_chr_lit in Hc as ->
    end.
    now right.
  - match goal with
    | Hd : all_in digit (String a w2) = true |- _ =>
        cbn [all_in] in Hd; apply andb_true_iff in Hd as [Ha _]
    end.
    exists a, (w2 ++ w3 ++ w4 ++ w5). split; [exact Ha | now left].
Qed.

Lemma take_sign_unsigned a s :
  in_class sign a = false -> take_sign (String a s) = (false, String a s).
Proof.
  unfold sign, in_class, ascii_in, existsb, take_sign.
  destruct (Ascii.eqb a "-"); [discriminate|].
  destruct (Ascii.eqb a "+"); [discriminate|]. reflexivity.
Qed.

Lemma decimal_subject_unsigned u :
  (exists a s, is_digit a = true
               /\ (u = String a s \/ u = String "." (String a s))) ->
  decimal_subject u <> None.
Proof.
  intros (a & s & Ha & [-> | ->]); unfold decimal_subject.
  - rewrite span_stop by now apply digit_not_space.
    rewrite take_sign_unsigned by now apply digit_not_sign.
    pose proof (unsigned_decimal_digit a s Ha).
    now destruct (unsigned_decimal (String a s)).
  - rewrite span_stop by reflexivity.
    rewrite take_sign_unsigned by reflexivity.
    pose proof (unsigned_decimal_dot_digit a s Ha).
    now destruct (unsigned_decimal (String "." (String a s))).
Qed.

Lemma decimal_subject_signed c u :
  in_class sign c = true ->
  (exists a s, is_digit a = true
               /\ (u = String a s \/ u = String "." (String a s))) ->
  decimal_subject (String c u) <> None.
Proof.
  intros Hc (a & s & Ha & Hu). unfold decimal_subject.
  assert (Hu' : unsigned_decimal u <> None).
  { destruct Hu as [-> | ->];
      [now apply unsigned_decimal_digit | now apply unsigned_decimal_dot_digit]. }
  destruct (sign_cases c Hc) as [-> | ->].
  - rewrite span_stop by reflexivity. cbn [take_sign]. rewrite Ascii.eqb_refl.
    now destruct (unsigned_decimal u).
  - rewrite span_stop by reflexivity. cbn [take_sign].
    change (Ascii.eqb "+" "-") with false. rewrite Ascii.eqb_refl.
    now destruct (unsigned_decimal u).
Qed.

(** [strtof] converts every numeric token. *)
Lemma decimal_subject_token tok :
  matches number_regex tok -> decimal_subject tok <> None.
Proof.
  unfold number_regex. intros H.
  apply matches_cat_inv in H as (w1 & u & -> & H1 & Hu).
  apply number_body_start in Hu.
  inv H1.
  - now apply decimal_subject_unsigned.
  - match goal with Hc : matches (Chr _) _ |- _ => inv Hc end.
    now apply decimal_subject_signed.
Qed.

(** [std::stof] on a numeric token returns a float or throws
    [out_of_range]; it never throws [invalid_argument]. *)
Lemma stof_token tok :
  matches number_regex tok ->
  (exists x, stof tok = Ok x) \/ stof tok = Throw (out_of_range "stof").
Proof.
  intros H%decimal_subject_token. unfold stof, strtof.
  destruct (decimal_subject tok) as [[neg [n d]]|]; [|congruence].
  match goal with |- context [if ?b then _ else _] => destruct b end; eauto.
Qed.

Lemma tokens_in_order_words s toks :
  tokens_in_order s toks -> Forall (matches number_regex) toks.
Proof. induction 1; constructor; assumption. Qed.

Lemma decode_tokens_words s : Forall (matches number_regex) (decode_tokens s).
Proof.
  unfold decode_tokens.
  destruct (regex_search features_regex s);
    eapply tokens_in_order_words, numeric_tokens_in_order.
Qed.

Lemma omap_stof_words toks :
  Forall (matches number_regex) toks ->
  (exists v, omap stof toks = Ok v)
  \/ (omap stof toks = Throw (out_of_range "stof")
      /\ Exists (fun t => stof t = Throw (out_of_range "stof")) toks).
Proof.
  induction 1 as [|t toks Ht _ IH]; simpl.
  - left. eauto.
  - destruct (stof_token t Ht) as [[x Hx] | Hx]; rewrite Hx; simpl.
    + destruct IH as [[v Hv] | [Hv He]]; rewrite Hv; simpl; eauto.
    + right. split; [reflexivity | now constructor].
Qed.

(** ** An empty bracketed list *)

Lemma sapp_inv_head (a b c : string) : a ++ b = a ++ c -> b = c.
Proof. induction a as [|x a IH]; simpl; [auto|]. intros [= H]. auto. Qed.

(** A maximal run of a class is determined by the text. *)
Lemma run_unique c : forall l1 r1 l2 r2,
  l1 ++ r1 = l2 ++ r2 ->
  all_in c l1 = true -> all_in c l2 = true ->
  stops c r1 = true -> stops c r2 = true ->
  l1 = l2 /\ r1 = r2.
Proof.
  induction l1 as [|a l1 IH]; intros r1 [|b l2] r2 H A1 A2 S1 S2;
    simpl in *.
  - auto.
  - subst r1. simpl in S1. apply andb_true_iff in A2 as [A2 _].
    now rewrite A2 in S1.
  - subst r2. simpl in S2. apply andb_true_iff in A1 as [A1 _].
    now rewrite A1 in S2.
  - injection H as -> H.
    apply andb_true_iff in A1 as [_ A1]. apply andb_true_iff in A2 as [_ A2].
    destruct (IH _ _ _ H A1 A2 S1 S2) as [-> ->]. auto.
Qed.

Lemma field_text_empty_no_match ws1 ws2 post :
  all_in CSpace ws1 = true -> all_in CSpace ws2 = true ->
  match_at features_regex (field_text ws1 ws2 "" post) = None.
Proof.
  intros H1 H2.
  destruct (match_at features_regex (field_text ws1 ws2 "" post))
    as [[rest cs]|] eqn:Hm; [exfalso | reflexivity].
  apply features_match_at_inv in Hm
    as (v1 & v2 & body & Ht & Hv1 & Hv2 & Hb & Hne & _).
  unfold field_text in Ht. apply sapp_inv_head in Ht.
  apply run_unique with (c := CSpace) in Ht as [_ Ht];
    [| assumption | assumption | reflexivity | reflexivity].
  injection Ht as Ht.
  apply run_unique with (c := CSpace) in Ht as [_ Ht];
    [| assumption | assumption | reflexivity | reflexivity].
  injection Ht as Ht.
  destruct body as [|b body]; [congruence|].
  injection Ht as <- _. discriminate.
Qed.

Lemma prefix_app (p r : string) : String.prefix p (p ++ r) = true.
Proof.
  induction p as [|a p IH]; simpl; [now destruct r|].
  destruct (ascii_dec a a); [assumption | congruence].
Qed.

Lemma occurrences_app_ge pat p t :
  String.prefix pat t = true -> (1 <= occurrences pat (p ++ t))%nat.
Proof.
  intros H. induction p as [|a p IH]; simpl.
  - destruct t; simpl in *; rewrite H; lia.
  - lia.
Qed.

(** Two different positions holding [pat] count for two. *)
Lemma occurrences_two pat : forall p1 t1 p2 t2,
  p1 ++ t1 = p2 ++ t2 -> (slen p1 < slen p2)%nat ->
  String.prefix pat t1 = true -> String.prefix pat t2 = true ->
  (2 <= occurrences pat (p1 ++ t1))%nat.
Proof.
  induction p1 as [|a p1 IH]; intros t1 [|b p2] t2 H Hl H1 H2;
    simpl in Hl; try lia.
  - simpl in H. subst t1. cbn [append occurrences] in *. rewrite H1.
    pose proof (occurrences_app_ge pat p2 t2 H2). lia.
  - injection H as _ H. cbn [append occurrences].
    assert (2 <= occurrences pat (p1 ++ t1))%nat by (eapply IH; eauto; lia).
    lia.
Qed.

Lemma features_match_prefix t rest cs :
  match_at features_regex t = Some (rest, cs) ->
  String.prefix features_key t = true.
Proof.
  intros H. apply features_match_at_inv in H as (v1 & v2 & body & -> & _).
  apply prefix_app.
Qed.

Lemma single_empty_field_no_match pre ws1 ws2 post :
  all_in CSpace ws1 = true -> all_in CSpace ws2 = true ->
  occurrences features_key (pre ++ field_text ws1 ws2 "" post) = 1%nat ->
  regex_search features_regex (pre ++ field_text ws1 ws2 "" post) = None.
Proof.
  intros H1 H2 Hocc. apply regex_search_none. intros p t Hs.
  destruct (match_at features_regex t) as [[rest cs]|] eqn:Hm;
    [exfalso | reflexivity].
  pose proof (features_match_prefix _ _ _ Hm) as Hp.
  assert (Hf : String.prefix features_key (field_text ws1 ws2 "" post) = true)
    by apply prefix_app.
  destruct (Nat.lt_trichotomy (slen pre) (slen p)) as [Hlt | [Heq | Hgt]].
  - pose proof (occurrences_two _ _ _ _ _ Hs Hlt Hf Hp). lia.
  - apply sapp_same_length in Hs as [_ <-]; [|assumption].
    now rewrite field_text_empty_no_match in Hm.
  - symmetry in Hs. pose proof (occurrences_two _ _ _ _ _ Hs Hgt Hp Hf) as H.
    rewrite Hs in H. lia.
Qed.

(* ================================================================== *)
(** * The claims *)

(** ** The engine handle *)

Lemma load_keeps_input_size jit_load ml b ml' :
  outcome_of (load jit_load ml) = Ok (b, ml') ->
  input_size_ ml' = input_size_ ml.
Proof.
  unfold load, outcome_of, try_catch, bind, cout, cerr, emit, lift, ret.
  simpl. destruct (jit_load (model_path_ ml)); simpl; intros [= <- <-];
    reflexivity.
Qed.

Lemma loader_step_keeps_input_size ml op :
  input_size_ (loader_step ml op) = input_size_ ml.
Proof.
  destruct op as [file|t]; simpl; [|reflexivity].
  destruct (outcome_of (load (fun _ => file) ml)) as [[b ml']| |] eqn:E;
    [|reflexivity|reflexivity].
  now apply load_keeps_input_size in E.
Qed.

(** C9: whatever path a [ModelLoader] is constructed with and whatever
    sequence of [load] (succeeding or failing) and [predict] calls
    follows, [get_input_size] returns 16: the width is set by the
    constructor and no operation derives it from the loaded model. *)
Theorem C9_input_size_always_16 (model_path : string) (ops : list loader_op) :
  get_input_size (fold_left loader_step ops (ModelLoader_new model_path)) = 16.
Proof.
  unfold get_input_size.
  assert (H : forall ml, input_size_ (fold_left loader_step ops ml)
                         = input_size_ ml).
  { induction ops as [|op ops IH]; intros ml; simpl; [reflexivity|].
    now rewrite IH, loader_step_keeps_input_size. }
  now rewrite H.
Qed.

(** ** The accept loop and [stop()] *)

Lemma dispatched_app (a b : list event) :
  dispatched (a ++ b) = (dispatched a ++ dispatched b)%list.
Proof.
  induction a as [|e a IH]; simpl; [reflexivity|].
  destruct e; simpl; now rewrite IH.
Qed.

Lemma stopped_step server_socket st ev :
  running st = false ->
  running (loop_step server_socket st ev) = false
  /\ exists extra,
       dispatched (out (loop_step server_socket st ev))
       = (dispatched (out st) ++ extra)%list
       /\ (List.length extra + pending (loop_step server_socket st ev)
           <= pending st)%nat.
Proof.
  intros Hr. destruct st as [r p o]. simpl in Hr. subst r.
  unfold pending.
  destruct ev as [| |fd]; destruct p; simpl;
    try (split; [reflexivity|]; exists []; rewrite app_nil_r; simpl;
         split; [reflexivity | lia]).
  - split; [reflexivity|]. exists [].
    rewrite dispatched_app, app_nil_r. simpl. rewrite app_nil_r.
    split; [reflexivity | lia].
  - destruct (fd <? 0); simpl.
    + split; [reflexivity|]. exists []. rewrite !app_nil_r. simpl.
      split; [reflexivity | lia].
    + split; [reflexivity|]. exists [fd]. rewrite dispatched_app. simpl.
      split; [reflexivity | lia].
Qed.

Lemma stopped_loop server_socket sch : forall st,
  running st = false ->
  running (accept_loop server_socket sch st) = false
  /\ exists extra,
       dispatched (out (accept_loop server_socket sch st))
       = (dispatched (out st) ++ extra)%list
       /\ (List.length extra + pending (accept_loop server_socket sch st)
           <= pending st)%nat.
Proof.
  induction sch as [|ev sch IH]; intros st Hr.
  - split; [assumption|]. exists []. rewrite app_nil_r. simpl.
    split; [reflexivity | lia].
  - destruct (stopped_step server_socket st ev Hr) as (Hr1 & e1 & He1 & Hl1).
    destruct (IH _ Hr1) as (Hr2 & e2 & He2 & Hl2).
    change (accept_loop server_socket (ev :: sch) st)
      with (accept_loop server_socket sch (loop_step server_socket st ev)).
    split; [assumption|]. exists (e1 ++ e2)%list.
    rewrite He2, He1, app_assoc, length_app.
    split; [reflexivity | lia].
Qed.

Lemma blocked_in_accept server_socket sch : forall st,
  pc st = InAccept ->
  Forall (fun ev => ev = StopCalled \/ ev = LoopStep) sch ->
  pc (accept_loop server_socket sch st) = InAccept.
Proof.
  induction sch as [|ev sch IH]; intros st Hp Hall; simpl; [assumption|].
  inv Hall. apply IH; [|assumption].
  destruct st as [r p o]. simpl in Hp. subst p.
  match goal with H : _ \/ _ |- _ => destruct H as [-> | ->] end;
    reflexivity.
Qed.

(** C3, as the code has it: once [stop()] has been called the flag stays
    false and the loop starts no further [accept]: the connections
    dispatched from then on plus the [accept] calls still in progress
    never exceed the [accept] calls in progress at the time of the call,
    which is at most one.  The loop leaves at its next test of the loop
    condition, that is at once from the loop head and after the pending
    [accept] has returned otherwise; there is no accept timeout: until
    that [accept] returns the loop stays blocked in it. *)
Theorem C3_stop_lets_pending_accept_through
    (server_socket : Z) (st : loop_state) (sch : list sched) :
  let st' := accept_loop server_socket sch (stop st) in
  running st' = false
  /\ (exists extra,
        dispatched (out st') = (dispatched (out st) ++ extra)%list
        /\ (List.length extra + pending st' <= pending st)%nat)
  /\ (pc st = AtWhile ->
      pc (accept_loop server_socket [LoopStep] (stop st)) = Exited)
  /\ (pc st = InAccept -> forall r,
      pc (accept_loop server_socket [AcceptReturns r; LoopStep] (stop st))
      = Exited)
  /\ (pc st = InAccept ->
      Forall (fun ev => ev = StopCalled \/ ev = LoopStep) sch ->
      pc st' = InAccept).
Proof.
  intros st'.
  destruct (stopped_loop server_socket sch (stop st) eq_refl)
    as (Hr & extra & He & Hl).
  split; [exact Hr|]. split; [|split; [|split]].
  - exists extra. split; [exact He|]. fold st' in Hl.
    change (pending (stop st)) with (pending st) in Hl. lia.
  - destruct st as [r p o]. simpl. now intros ->.
  - destruct st as [r p o]. simpl. intros -> fd. simpl.
    now destruct (fd <? 0).
  - intros Hp Hall. now apply blocked_in_accept.
Qed.

(** C3 as stated fails: with the loop blocked in [accept], a connection
    that arrives after [stop()] is handed to a handler thread. *)
Lemma C3_counterexample_dispatch_after_stop :
  running (accept_loop 3 [LoopStep; StopCalled] listening) = false
  /\ dispatched (out (accept_loop 3 [LoopStep; StopCalled] listening)) = []
  /\ dispatched
       (out (accept_loop 3 [LoopStep; StopCalled; AcceptReturns 7] listening))
     = [7].
Proof. repeat split. Qed.

Lemma C3_stop_witness :
  pc (accept_loop 3 [AcceptReturns 7; LoopStep]
        (stop (accept_loop 3 [LoopStep] listening))) = Exited.
Proof.
  apply (C3_stop_lets_pending_accept_through 3
           (accept_loop 3 [LoopStep] listening) []).
  reflexivity.
Defined.

(** ** One connection: the width check *)

Lemma process_inference_mismatch ml input_data :
  Z.of_nat (List.length input_data) <> to_size_t (get_input_size ml) ->
  process_inference ml input_data
  = throw (runtime_error
             (mismatch_message (get_input_size ml)
                               (Z.of_nat (List.length input_data)))).
Proof.
  intros H. unfold process_inference.
  apply Z.eqb_neq in H. now rewrite H.
Qed.

Lemma received_something bytes :
  stake 4095 bytes <> "" ->
  (Z.of_nat (slen (stake 4095 bytes)) <=? 0) = false.
Proof.
  intros H. apply Z.leb_gt.
  destruct (stake 4095 bytes); [congruence | simpl; lia].
Qed.

(** The trace of a connection whose decoded vector has the wrong width. *)
Lemma handle_client_mismatch ml client_socket bytes input_data :
  stake 4095 bytes <> "" ->
  parse_input_json (extract_body (c_string (stake 4095 bytes)))
  = Ok input_data ->
  Z.of_nat (List.length input_data) <> to_size_t (get_input_size ml) ->
  let msg := mismatch_message (get_input_size ml)
                              (Z.of_nat (List.length input_data)) in
  handle_client ml client_socket (RecvBytes bytes)
  = (Ok tt,
     [EvCout ("Received request: "
              ++ stake 100 (c_string (stake 4095 bytes)) ++ "...");
      EvCerr ("Error handling client: " ++ msg);
      EvSend client_socket (http_error (error_body msg));
      EvClose client_socket]).
Proof.
  intros Hrx Hparse Hlen msg. unfold handle_client.
  rewrite (received_something bytes Hrx), Hparse.
  cbn [bind lift cout emit try_catch].
  rewrite (process_inference_mismatch ml input_data Hlen).
  reflexivity.
Qed.

(** C1: when the decoded feature vector's length differs from the
    engine's expected input width, the connection is answered with the
    error body naming the expected and the actual count, and neither
    [predict] nor the module's [forward] is called. *)
Theorem C1_width_mismatch_error_response
    (ml : ModelLoader) (client_socket : Z) (bytes : string)
    (input_data : list float) :
  stake 4095 bytes <> "" ->
  parse_input_json (extract_body (c_string (stake 4095 bytes)))
  = Ok input_data ->
  Z.of_nat (List.length input_data) <> to_size_t (get_input_size ml) ->
  let r := handle_client ml client_socket (RecvBytes bytes) in
  outcome_of r = Ok tt
  /\ sent (trace_of r)
     = [(client_socket,
         http_error
           (error_body
              ("Input size mismatch. Expected "
               ++ string_of_Z (get_input_size ml) ++ " but got "
               ++ string_of_Z (Z.of_nat (List.length input_data)))))]
  /\ engine_calls (trace_of r) = [].
Proof.
  intros Hrx Hparse Hlen r. subst r.
  rewrite (handle_client_mismatch ml client_socket bytes input_data
             Hrx Hparse Hlen).
  repeat split.
Qed.

Lemma C1_width_mismatch_witness :
  sent (trace_of (handle_client (loader_width 3) 5 (RecvBytes payload_two)))
  = [(5, http_error ("{" ++ dq ++ "error" ++ dq ++ ": " ++ dq
                     ++ "Input size mismatch. Expected 3 but got 2"
                     ++ dq ++ "}"))]
  /\ engine_calls
       (trace_of (handle_client (loader_width 3) 5 (RecvBytes payload_two)))
     = [].
Proof.
  apply (C1_width_mismatch_error_response (loader_width 3) 5 payload_two
           [float_1; float_2]).
  - discriminate.
  - vm_compute. reflexivity.
  - vm_compute. discriminate.
Defined.

(** ** Payloads without numeric tokens *)

Lemma has_digit_stake n : forall s,
  has_digit s = false -> has_digit (stake n s) = false.
Proof.
  induction n as [|n IH]; intros [|a s]; simpl; try reflexivity.
  intros H. apply orb_false_iff in H as [Ha Hs]. now rewrite Ha, IH.
Qed.

Lemma has_digit_sdrop n : forall s,
  has_digit s = false -> has_digit (sdrop n s) = false.
Proof.
  induction n as [|n IH]; intros [|a s]; simpl; try reflexivity; auto.
  intros H. apply orb_false_iff in H as [_ Hs]. now apply IH.
Qed.

Lemma has_digit_c_string s :
  has_digit s = false -> has_digit (c_string s) = false.
Proof.
  induction s as [|a s IH]; simpl; [reflexivity|].
  intros H. apply orb_false_iff in H as [Ha Hs].
  destruct (Ascii.eqb a "000"); [reflexivity|].
  simpl. now rewrite Ha, IH.
Qed.

Lemma has_digit_find_after pat : forall s body,
  has_digit s = false -> find_after pat s = Some body ->
  has_digit body = false.
Proof.
  induction s as [|a s IH]; intros body H; cbn [find_after].
  - destruct (String.prefix pat ""); [|discriminate].
    intros [= <-]. now apply has_digit_sdrop.
  - destruct (String.prefix pat (String a s)).
    + intros [= <-]. now apply has_digit_sdrop.
    + simpl in H. apply orb_false_iff in H as [_ Hs]. now apply IH.
Qed.

Lemma has_digit_extract_body s :
  has_digit s = false -> has_digit (extract_body s) = false.
Proof.
  intros H. unfold extract_body.
  destruct (find_after (CRLF ++ CRLF) s) eqn:E; [|assumption].
  now apply has_digit_find_after in E.
Qed.

Lemma parse_no_digit s : has_digit s = false -> parse_input_json s = Ok [].
Proof.
  intros H. rewrite parse_input_json_tokens. unfold decode_tokens.
  destruct (regex_search features_regex s) as [mt|] eqn:E.
  - apply search_features_some in E as (body & Hf & -> & _).
    apply features_field_text in Hf as (v1 & v2 & -> & _).
    unfold field_text in H. rewrite !has_digit_app in H.
    repeat (apply orb_false_iff in H as [? H]).
    assert (Hb : numeric_tokens body = []) by now apply numeric_tokens_nil.
    simpl. now rewrite Hb.
  - apply numeric_tokens_nil in H. now rewrite H.
Qed.

(** C7: a payload without numeric tokens decodes, without error, to the
    empty feature vector; received as a request it is then answered by the
    width check, with the actual count 0, whenever the expected width is
    not 0, and the engine is not called. *)
Theorem C7_no_tokens_empty_vector (payload : string) :
  numeric_tokens payload = [] ->
  parse_input_json payload = Ok []
  /\ forall ml client_socket,
       payload <> "" -> to_size_t (get_input_size ml) <> 0 ->
       let r := handle_client ml client_socket (RecvBytes payload) in
       sent (trace_of r)
       = [(client_socket,
           http_error
             (error_body
                ("Input size mismatch. Expected "
                 ++ string_of_Z (get_input_size ml) ++ " but got 0")))]
       /\ engine_calls (trace_of r) = [].
Proof.
  intros H%numeric_tokens_nil. split; [now apply parse_no_digit|].
  intros ml client_socket Hne Hw r. subst r.
  rewrite (handle_client_mismatch ml client_socket payload []).
  - repeat split.
  - destruct payload; [congruence | discriminate].
  - now apply parse_no_digit, has_digit_extract_body, has_digit_c_string,
      has_digit_stake.
  - simpl. congruence.
Qed.

Lemma C7_no_tokens_witness :
  parse_input_json payload_empty_object = Ok []
  /\ sent (trace_of (handle_client (loader_width 3) 5
                       (RecvBytes payload_empty_object)))
     = [(5, http_error ("{" ++ dq ++ "error" ++ dq ++ ": " ++ dq
                        ++ "Input size mismatch. Expected 3 but got 0"
                        ++ dq ++ "}"))].
Proof.
  destruct (C7_no_tokens_empty_vector payload_empty_object) as [Hd Hh].
  - reflexivity.
  - split; [exact Hd|].
    apply (Hh (loader_width 3) 5); [discriminate | vm_compute; discriminate].
Defined.

(** ** The response envelope *)

Lemma find_after_prefix pat s :
  String.prefix pat s = true -> find_after pat s = Some (sdrop (slen pat) s).
Proof. intros H. destruct s; cbn [find_after]; now rewrite H. Qed.

Lemma contains_app pat a b : contains pat (a ++ pat ++ b) = true.
Proof.
  unfold contains. induction a as [|x a IH]; cbn [append].
  - now rewrite find_after_prefix by apply prefix_app.
  - cbn [find_after].
    destruct (String.prefix pat (String x (a ++ pat ++ b))); [reflexivity|].
    exact IH.
Qed.

Lemma http_ok_has_cors_header response :
  contains "Access-Control-Allow-Origin: *" (http_ok response) = true.
Proof.
  replace (http_ok response)
    with (("HTTP/1.1 200 OK" ++ CRLF
           ++ "Content-Type: application/json" ++ CRLF
           ++ "Content-Length: " ++ string_of_Z (Z.of_nat (slen response))
           ++ CRLF)
          ++ "Access-Control-Allow-Origin: *" ++ (CRLF ++ CRLF ++ response))
    by (unfold http_ok; now rewrite !sapp_assoc).
  apply contains_app.
Qed.

(** C5 fails on the error path: every success response carries the
    [Access-Control-Allow-Origin] header, but the response to a request
    that raises (here the empty object, rejected by the width check) has
    the status line, the content type and the content length and no such
    header. *)
Theorem C5_error_response_lacks_cors_header :
  (forall response,
     contains "Access-Control-Allow-Origin: *" (http_ok response) = true)
  /\ exists response,
       sent (trace_of (handle_client (ModelLoader_new "financial_model.pt") 5
                         (RecvBytes payload_empty_object)))
       = [(5, response)]
       /\ String.prefix "HTTP/1.1 500 Internal Server Error" response = true
       /\ contains "Content-Type: application/json" response = true
       /\ contains "Content-Length: " response = true
       /\ contains "Access-Control-Allow-Origin" response = false.
Proof.
  split; [exact http_ok_has_cors_header|].
  eexists. split; [vm_compute; reflexivity|].
  repeat split; vm_compute; reflexivity.
Qed.

(** ** Start-up failures *)

Lemma port_check_passes port :
  0 < port <= 65535 -> ((port <=? 0) || (65535 <? port))%bool = false.
Proof.
  intros H. apply orb_false_iff. split; [apply Z.leb_gt | apply Z.ltb_ge]; lia.
Qed.

(** C4 fails on the exit status: when [bind] fails after the model has
    loaded, [run] reports the failure on the error stream, closes the
    socket and returns without accepting anything, and [main] then
    returns 0. *)
Theorem C4_bind_failure_exits_with_status_0
    (jit_load : string -> outcome Module) (md : Module) (net : NetEnv)
    (accepts : list Z) (model_path : string) (port : Z) :
  0 < port <= 65535 ->
  jit_load model_path = Ok md ->
  0 <= socket_result net ->
  bind_result net < 0 ->
  let r := main jit_load net accepts model_path port in
  outcome_of r = Ok (Some 0)
  /\ In (EvCerr "Error binding socket") (trace_of r)
  /\ dispatched (trace_of r) = [].
Proof.
  intros Hport Hload Hsock Hbind r. subst r.
  unfold main. rewrite (port_check_passes port Hport).
  unfold initialize, load, run, InferenceServer_new, ModelLoader_new.
  cbn [model_loader_ model_path_ port_ running_ input_size_ model_].
  cbn [bind cout cerr emit lift ret try_catch]. rewrite Hload.
  cbn [bind cout cerr emit lift ret try_catch fst snd negb app
       model_loader_ port_ running_].
  apply Z.ltb_ge in Hsock. apply Z.ltb_lt in Hbind. rewrite Hsock, Hbind.
  cbn [bind cout cerr emit lift ret try_catch fst snd negb app outcome_of
       trace_of dispatched].
  repeat split. simpl. tauto.
Qed.

Lemma C4_bind_failure_witness :
  outcome_of (main (fun _ => Ok trivial_module) port_in_use []
                "financial_model.pt" 8888) = Ok (Some 0).
Proof.
  apply (C4_bind_failure_exits_with_status_0
           (fun _ => Ok trivial_module) trivial_module port_in_use []
           "financial_model.pt" 8888); simpl; solve [lia | reflexivity].
Defined.

(** ** Encoding a prediction result *)

Lemma concat_comma_before x l :
  String.concat "," (x :: l) = x ++ comma_before l.
Proof.
  revert x. induction l as [|y l IH]; intros x.
  - simpl. now rewrite sapp_nil_r.
  - change (String.concat "," (x :: y :: l))
      with (x ++ "," ++ String.concat "," (y :: l)).
    now rewrite IH.
Qed.

Lemma row_to_json_tail t done : forall rest i json,
  data t = (done ++ rest)%list -> i = List.length done -> (0 < i)%nat ->
  row_to_json t i (List.length rest) json
  = Ok (json ++ comma_before (map fixed6 rest)).
Proof.
  revert done. intros done rest. revert done.
  induction rest as [|x rest IH]; intros done i json Hd Hi Hpos.
  - simpl. now rewrite sapp_nil_r.
  - cbn [List.length row_to_json].
    destruct (Nat.ltb_spec 0 i); [|lia].
    rewrite Hd, Hi, nth_error_app2, Nat.sub_diag by lia. cbn [nth_error].
    rewrite (IH (done ++ [x])%list).
    + cbn [map comma_before]. now rewrite !sapp_assoc.
    + now rewrite <- app_assoc.
    + rewrite length_app. simpl. lia.
    + lia.
Qed.

Lemma row_to_json_all t json :
  row_to_json t 0 (List.length (data t)) json
  = Ok (json ++ String.concat "," (map fixed6 (data t))).
Proof.
  destruct (data t) as [|x rest] eqn:Hd.
  - simpl. now rewrite sapp_nil_r.
  - cbn [List.length row_to_json Nat.ltb Nat.leb]. rewrite Hd. cbn [nth_error].
    rewrite (row_to_json_tail t [x] rest 1); [| assumption | reflexivity | lia].
    cbn [map]. now rewrite concat_comma_before, sapp_assoc.
Qed.

Lemma items_to_json_rest r : forall json,
  items_to_json (dict_of_result r) false json
  = Ok (json ++ comma_before (map encode_entry r)).
Proof.
  induction r as [|[k xs] r IH]; intros json.
  - simpl. now rewrite sapp_nil_r.
  - cbn [dict_of_result map items_to_json fst snd negb].
    unfold tensor_of_row, from_blob at 1, accessor_float_2.
    cbn [dtype sizes obind]. rewrite Nat2Z.id.
    change (List.length xs) with (List.length (data (from_blob xs))) at 1.
    rewrite row_to_json_all. cbn [obind].
    fold (dict_of_result r). rewrite IH.
    cbn [comma_before data from_blob]. unfold encode_entry. cbn [fst snd].
    now rewrite !sapp_assoc.
Qed.

Lemma outputs_to_json_result r :
  outputs_to_json (dict_of_result r)
  = Ok ("{" ++ String.concat "," (map encode_entry r) ++ "}").
Proof.
  unfold outputs_to_json. destruct r as [|[k xs] r].
  - reflexivity.
  - cbn [dict_of_result map items_to_json fst snd negb].
    unfold tensor_of_row, from_blob at 1, accessor_float_2.
    cbn [dtype sizes obind]. rewrite Nat2Z.id.
    change (List.length xs) with (List.length (data (from_blob xs))) at 1.
    rewrite row_to_json_all. cbn [obind].
    fold (dict_of_result r). rewrite items_to_json_rest. cbn [obind].
    rewrite concat_comma_before. unfold encode_entry.
    cbn [fst snd data from_blob]. now rewrite !sapp_assoc.
Qed.



Lemma uint_digits u : all_in digit (NilEmpty.string_of_uint u) = true.
Proof. induction u; simpl; auto. Qed.

Lemma string_of_Z_digits z : 0 <= z -> all_in digit (string_of_Z z) = true.
Proof.
  intros Hz. unfold string_of_Z, NilZero.string_of_int.
  destruct z as [|p|p]; [reflexivity | | lia].
  cbn [Z.to_int]. unfold NilZero.string_of_uint.
  destruct (Pos.to_uint p); try reflexivity; apply uint_digits.
Qed.















(** ** Decoding *)

(** C2, as the code has it: when the payload holds a features field
    whose bracketed list has at least one character before its first
    closing bracket, the feature vector comes from exactly the numeric
    tokens of that list (of the leftmost such field); when it holds no
    such field - in particular when the list is empty - it comes from the
    numeric tokens of the whole payload; the tokens of a text lie in it
    from left to right, and the vector keeps their order. *)
Theorem C2_decode_two_branches (s : string) :
  (forall pre body post,
     features_field s pre body post ->
     (forall pre' body' post', features_field s pre' body' post' ->
        (slen pre <= slen pre')%nat) ->
     parse_input_json s = omap stof (numeric_tokens body))
  /\ ((forall pre body post, ~ features_field s pre body post) ->
      parse_input_json s = omap stof (numeric_tokens s))
  /\ (forall t, tokens_in_order t (numeric_tokens t))
  /\ (forall toks v, omap stof toks = Ok v ->
        Forall2 (fun tok x => stof tok = Ok x) toks v).
Proof.
  split; [|split; [|split]].
  - intros pre body post Hf Hleft.
    now rewrite parse_input_json_tokens,
      (decode_tokens_field s pre body post Hf Hleft).
  - intros Hno. now rewrite parse_input_json_tokens, decode_tokens_no_field.
  - exact numeric_tokens_in_order.
  - intros toks v. apply omap_ok.
Qed.

(** C2 as stated fails on an empty list: the payload has a features field
    followed by a bracketed list, no numeric token lies inside that list,
    and the decoded vector is not empty. *)
Lemma C2_counterexample_empty_list :
  field_with_list payload_empty_list "{" ""
    (", " ++ dq ++ "id" ++ dq ++ ": 7}")
  /\ omap stof (numeric_tokens "") = Ok []
  /\ parse_input_json payload_empty_list = Ok [float_7].
Proof.
  split; [|split; vm_compute; reflexivity].
  exists "", " ". repeat split.
Qed.

Lemma C2_decode_witness :
  features_field payload_two "{" "1.0,2.0" "}"
  /\ parse_input_json payload_two = omap stof (numeric_tokens "1.0,2.0").
Proof.
  assert (Hf : features_field payload_two "{" "1.0,2.0" "}").
  { split; [|discriminate]. exists "", " ". repeat split. }
  split; [exact Hf|].
  apply (proj1 (C2_decode_two_branches payload_two) "{" "1.0,2.0" "}" Hf).
  intros [|c pre'] body' post' [(ws1 & ws2 & H & _) _];
    [discriminate H | simpl; lia].
Defined.

(** C8, as the code has it: decoding never fails because of the
    structure of the payload.  Either every extracted token converts and
    the feature vector holds the converted tokens in order, or some
    extracted token is outside the range of [float] and [std::stof] leaves
    by [std::out_of_range]; no other outcome exists. *)
Theorem C8_decode_fails_only_out_of_range (s : string) :
  (exists v,
     parse_input_json s = Ok v
     /\ Forall2 (fun tok x => stof tok = Ok x) (decode_tokens s) v)
  \/ (parse_input_json s = Throw (out_of_range "stof")
      /\ Exists (fun tok => stof tok = Throw (out_of_range "stof"))
           (decode_tokens s)).
Proof.
  rewrite parse_input_json_tokens.
  destruct (omap_stof_words _ (decode_tokens_words s)) as [[v Hv] | H].
  - left. exists v. split; [assumption | now apply omap_ok].
  - now right.
Qed.

(** C8 as stated fails: [1e999] is a numeric token, and decoding a
    payload that holds it raises [std::out_of_range]. *)
Lemma C8_counterexample_out_of_range :
  numeric_tokens payload_huge = ["1e999"]
  /\ parse_input_json payload_huge = Throw (out_of_range "stof").
Proof. split; vm_compute; reflexivity. Qed.

(** C10, as the code has it: at a features key followed by an empty
    bracketed list the features pattern does not match, whatever
    surrounds it, so that key never supplies the feature vector.  When the
    payload holds no features key with a non-empty list anywhere - in
    particular when the key with the empty list is the only occurrence of
    ["features"] - the search fails altogether and the vector comes from
    the numeric tokens of the whole payload; when it holds one elsewhere,
    the vector comes from the list of the leftmost one. *)
Theorem C10_empty_list_falls_through (pre ws1 ws2 post : string) :
  all_in CSpace ws1 = true -> all_in CSpace ws2 = true ->
  let s := pre ++ features_key ++ ws1 ++ ":" ++ ws2 ++ "[" ++ "]" ++ post in
  match_at features_regex
    (features_key ++ ws1 ++ ":" ++ ws2 ++ "[" ++ "]" ++ post) = None
  /\ (forall pre' body' post',
        features_field s pre' body' post' -> slen pre' <> slen pre)
  /\ ((forall pre' body' post', ~ features_field s pre' body' post') ->
      regex_search features_regex s = None
      /\ parse_input_json s = omap stof (numeric_tokens s))
  /\ (occurrences features_key s = 1%nat ->
      parse_input_json s = omap stof (numeric_tokens s))
  /\ (forall pre' body' post',
        features_field s pre' body' post' ->
        (forall pre'' body'' post'',
           features_field s pre'' body'' post'' ->
           (slen pre' <= slen pre'')%nat) ->
        parse_input_json s = omap stof (numeric_tokens body')).
Proof.
  intros H1 H2 s. subst s.
  change (features_key ++ ws1 ++ ":" ++ ws2 ++ "[" ++ "]" ++ post)
    with (field_text ws1 ws2 "" post).
  pose proof (field_text_empty_no_match ws1 ws2 post H1 H2) as Hhere.
  split; [exact Hhere|]. split; [|split; [|split]].
  - intros pre' body' post' [(v1 & v2 & E & Hv1 & Hv2 & Hb) Hne] Hlen.
    symmetry in Hlen.
    apply sapp_same_length in E as [_ E]; [|exact Hlen].
    change (features_key ++ v1 ++ ":" ++ v2 ++ "[" ++ body' ++ "]" ++ post')
      with (field_text v1 v2 body' post') in E.
    rewrite E, (features_match_at v1 v2 body' post' Hv1 Hv2 Hb Hne) in Hhere.
    discriminate Hhere.
  - intros Hno.
    assert (Hs : regex_search features_regex
                   (pre ++ field_text ws1 ws2 "" post) = None).
    { destruct (regex_search features_regex
                  (pre ++ field_text ws1 ws2 "" post)) as [mt|] eqn:E;
        [exfalso | reflexivity].
      apply search_features_some in E as (body & Hf & _).
      exact (Hno _ _ _ Hf). }
    split; [exact Hs|]. unfold parse_input_json. now rewrite Hs.
  - intros Hocc.
    pose proof (single_empty_field_no_match pre ws1 ws2 post H1 H2 Hocc) as Hs.
    unfold parse_input_json. now rewrite Hs.
  - intros pre' body' post' Hf Hleft.
    now rewrite parse_input_json_tokens,
      (decode_tokens_field _ pre' body' post' Hf Hleft).
Qed.

(** C10 as stated fails when a second features key follows: the payload
    has a features key followed by an empty bracketed list, yet decode
    does not fall through to the whole payload, whose tokens are 1 and 7;
    it returns the list of the second key. *)
Lemma C10_counterexample_second_field :
  field_with_list payload_two_fields "{" ""
    (", " ++ features_key ++ ": [1], " ++ dq ++ "id" ++ dq ++ ": 7}")
  /\ omap stof (numeric_tokens payload_two_fields) = Ok [float_1; float_7]
  /\ parse_input_json payload_two_fields = Ok [float_1].
Proof.
  split; [|split; vm_compute; reflexivity].
  exists "", " ". repeat split.
Qed.

Lemma C10_empty_list_witness :
  parse_input_json payload_empty_list = Ok [float_7].
Proof.
  pose proof (C10_empty_list_falls_through "{" "" " "
                (", " ++ dq ++ "id" ++ dq ++ ": 7}") eq_refl eq_refl) as H.
  cbv zeta in H. destruct H as (_ & _ & _ & H & _).
  specialize (H eq_refl).
  change (parse_input_json payload_empty_list
          = omap stof (numeric_tokens payload_empty_list)) in H.
  rewrite H. vm_compute. reflexivity.
Defined.

(* ================================================================== *)
(** * Further properties *)

(** ** What one connection does *)

Lemma sent_app (a b : list event) : sent (a ++ b) = (sent a ++ sent b)%list.
Proof.
  induction a as [|e a IH]; simpl; [reflexivity|].
  destruct e; simpl; now rewrite IH.
Qed.

Lemma closes_app (a b : list event) :
  closes (a ++ b) = (closes a ++ closes b)%list.
Proof.
  induction a as [|e a IH]; simpl; [reflexivity|].
  destruct e; simpl; now rewrite IH.
Qed.

Lemma predict_quiet ml t :
  sent (trace_of (predict ml t)) = []
  /\ closes (trace_of (predict ml t)) = [].
Proof.
  unfold predict, trace_of.
  cbn [bind emit throw try_catch lift cerr].
  destruct (loaded_ ml); cbn [negb]; [|split; reflexivity].
  destruct (forward (model_ ml) t) as [out| |]; cbn; try (split; reflexivity).
  destruct (toGenericDict out) as [items| |]; cbn; try (split; reflexivity).
  destruct (convert_items items []); cbn; split; reflexivity.
Qed.

Lemma process_inference_quiet ml v :
  sent (trace_of (process_inference ml v)) = []
  /\ closes (trace_of (process_inference ml v)) = [].
Proof.
  unfold process_inference.
  destruct (negb (Z.of_nat (List.length v) =? to_size_t (get_input_size ml)));
    [split; reflexivity|].
  destruct (predict_quiet ml (from_blob v)) as [Hs Hc].
  unfold trace_of, bind in *.
  destruct (predict ml (from_blob v)) as [[d| |] t]; cbn [snd] in *;
    try (split; assumption).
  unfold lift. cbn. rewrite sent_app, closes_app, Hs, Hc.
  split; reflexivity.
Qed.

Lemma handle_client_nothing_received ml client_socket rx :
  match rx with RecvBytes (String _ _) => False | _ => True end ->
  handle_client ml client_socket rx = (Ok tt, [EvClose client_socket]).
Proof. destruct rx as [[|a b]| |]; intros H; [reflexivity | tauto | reflexivity | reflexivity]. Qed.

(** The trace of a connection in terms of what [process_inference] does
    with the decoded vector. *)
Lemma handle_client_process ml client_socket bytes v o t :
  stake 4095 bytes <> "" ->
  parse_input_json (extract_body (c_string (stake 4095 bytes))) = Ok v ->
  process_inference ml v = (o, t) ->
  handle_client ml client_socket (RecvBytes bytes)
  = let hello := EvCout ("Received request: "
                         ++ stake 100 (c_string (stake 4095 bytes)) ++ "...") in
    match o with
    | Ok response =>
        (Ok tt, hello :: t ++ [EvSend client_socket (http_ok response);
                               EvClose client_socket])
    | Throw e =>
        (Ok tt, hello :: t
                ++ [EvCerr ("Error handling client: " ++ what e);
                    EvSend client_socket (http_error (error_body (what e)));
                    EvClose client_socket])
    | Undefined => (Undefined, hello :: t)
    end%list.
Proof.
  intros Hrx Hparse Hproc. unfold handle_client.
  rewrite (received_something bytes Hrx), Hparse.
  cbn [bind lift cout emit try_catch]. rewrite Hproc.
  destruct o; cbn [bind emit try_catch cerr app];
    rewrite <- ?app_assoc; reflexivity.
Qed.

Lemma handle_client_decode_error ml client_socket bytes e :
  stake 4095 bytes <> "" ->
  parse_input_json (extract_body (c_string (stake 4095 bytes))) = Throw e ->
  handle_client ml client_socket (RecvBytes bytes)
  = (Ok tt,
     [EvCout ("Received request: "
              ++ stake 100 (c_string (stake 4095 bytes)) ++ "...");
      EvCerr ("Error handling client: " ++ what e);
      EvSend client_socket (http_error (error_body (what e)));
      EvClose client_socket]).
Proof.
  intros Hrx Hparse. unfold handle_client.
  now rewrite (received_something bytes Hrx), Hparse.
Qed.

Lemma stof_defined tok : stof tok <> Undefined.
Proof. unfold stof. destruct (strtof tok) as [[f [|]]|]; discriminate. Qed.

Lemma omap_stof_defined toks : omap stof toks <> Undefined.
Proof.
  induction toks as [|tok toks IH]; [discriminate|]. cbn [omap].
  pose proof (stof_defined tok).
  destruct (stof tok) as [x| |]; cbn [obind]; [|discriminate|congruence].
  destruct (omap stof toks); cbn [obind]; [discriminate|discriminate|].
  congruence.
Qed.

Lemma parse_input_json_defined s : parse_input_json s <> Undefined.
Proof. rewrite parse_input_json_tokens. apply omap_stof_defined. Qed.

Lemma convert_items_defined items : forall acc,
  convert_items items acc <> Undefined.
Proof.
  induction items as [|[k v] items IH]; intros acc; [discriminate|].
  cbn [convert_items].
  destruct k; cbn [toStringRef obind]; try discriminate.
  destruct v; cbn [toTensor obind]; try discriminate. apply IH.
Qed.

(** The three ways [predict] ends. *)
Lemma predict_outcome ml t :
  outcome_of (predict ml t)
  = if negb (loaded_ ml) then Throw (runtime_error "Model not loaded")
    else obind (forward (model_ ml) t) (fun output =>
         obind (toGenericDict output) (fun items => convert_items items [])).
Proof.
  unfold predict. cbn [bind emit throw try_catch lift cerr outcome_of fst].
  destruct (loaded_ ml); cbn [negb]; [|reflexivity].
  destruct (forward (model_ ml) t) as [out| |]; cbn; try reflexivity.
  destruct (toGenericDict out) as [items| |]; cbn; try reflexivity.
  destruct (convert_items items []); reflexivity.
Qed.

Lemma predict_undefined ml t :
  outcome_of (predict ml t) = Undefined
  <-> is_loaded ml = true /\ forward (model_ ml) t = Undefined.
Proof.
  rewrite predict_outcome. unfold is_loaded.
  destruct (loaded_ ml); cbn [negb].
  2:{ split; [discriminate | intros [H _]; discriminate H]. }
  destruct (forward (model_ ml) t) as [out| |]; cbn [obind].
  - split; [|intros [_ H]; discriminate H]. intros H. exfalso.
    destruct out as [x|x|items|]; cbn [toGenericDict obind] in H;
      try discriminate H.
    now apply convert_items_defined in H.
  - split; [discriminate | intros [_ H]; discriminate H].
  - split; [now split | reflexivity].
Qed.

Lemma predict_ok_loaded ml t d :
  outcome_of (predict ml t) = Ok d -> is_loaded ml = true.
Proof.
  rewrite predict_outcome. unfold is_loaded.
  destruct (loaded_ ml); [reflexivity | discriminate].
Qed.

Lemma process_inference_outcome ml v :
  outcome_of (process_inference ml v)
  = if negb (Z.of_nat (List.length v) =? to_size_t (get_input_size ml))
    then Throw (runtime_error (mismatch_message (get_input_size ml)
                                 (Z.of_nat (List.length v))))
    else obind (outcome_of (predict ml (from_blob v))) outputs_to_json.
Proof.
  unfold process_inference.
  destruct (negb (Z.of_nat (List.length v) =? to_size_t (get_input_size ml)));
    [reflexivity|].
  unfold bind, outcome_of, lift.
  destruct (predict ml (from_blob v)) as [[d| |] t]; reflexivity.
Qed.

Lemma process_inference_undefined ml v :
  outcome_of (process_inference ml v) = Undefined
  <-> evaluation_undefined ml v.
Proof.
  rewrite process_inference_outcome. unfold evaluation_undefined.
  destruct (Z.eqb_spec (Z.of_nat (List.length v))
              (to_size_t (get_input_size ml))) as [Hw | Hw]; cbn [negb].
  2:{ split; [discriminate | intros [H _]; contradiction]. }
  split.
  - intros H. split; [exact Hw|].
    destruct (outcome_of (predict ml (from_blob v))) as [d| |] eqn:E;
      cbn [obind] in H; try discriminate H.
    + split; [exact (predict_ok_loaded _ _ _ E)|]. right. now exists d.
    + apply predict_undefined in E as [Hl Hf]. split; [exact Hl | now left].
  - intros (_ & Hl & [Hf | (d & Hd & Hj)]).
    + now rewrite (proj2 (predict_undefined ml (from_blob v)) (conj Hl Hf)).
    + now rewrite Hd.
Qed.

(** X1: a connection never ends by an exception, and it leaves defined
    behaviour in one case only: bytes arrived, they decode to a vector of
    the expected width, the model is loaded, and either the module's
    [forward] itself does so or the encoder reads outside a tensor of the
    result.  In every other case the handler returns normally, closes the
    client socket exactly once and writes to no other socket; it sends
    exactly one response when [recv] delivered bytes and none when the
    peer closed, [recv] failed or nothing arrived. *)
Theorem X1_one_response_one_close
    (ml : ModelLoader) (client_socket : Z) (rx : recv_result) :
  let h := handle_client ml client_socket rx in
  (outcome_of h = Undefined
   <-> exists bytes v,
         rx = RecvBytes bytes /\ bytes <> ""
         /\ parse_input_json (extract_body (c_string (stake 4095 bytes)))
            = Ok v
         /\ evaluation_undefined ml v)
  /\ (outcome_of h <> Undefined ->
      outcome_of h = Ok tt
      /\ closes (trace_of h) = [client_socket]
      /\ exists responses,
           sent (trace_of h) = map (fun r => (client_socket, r)) responses
           /\ List.length responses
              = match rx with
                | RecvBytes (String _ _) => 1%nat
                | _ => 0%nat
                end).
Proof.
  intros h. subst h.
  destruct rx as [[|a b]| |];
    try (rewrite handle_client_nothing_received by exact I;
         split;
         [split;
          [discriminate
          |intros (bytes & v & E & Hne & _); try discriminate E;
           injection E as <-; congruence]
         |intros _; repeat split; exists []; split; reflexivity]).
  assert (Hrx : stake 4095 (String a b) <> "") by discriminate.
  pose proof (parse_input_json_defined
                (extract_body (c_string (stake 4095 (String a b))))) as Hdef.
  destruct (parse_input_json
              (extract_body (c_string (stake 4095 (String a b)))))
    as [v|e|] eqn:Hparse; [| |congruence].
  - destruct (process_inference_quiet ml v) as [Hs Hc].
    pose proof (process_inference_undefined ml v) as Hu.
    destruct (process_inference ml v) as [o t] eqn:Hproc.
    cbn [outcome_of trace_of fst snd] in Hs, Hc, Hu.
    rewrite (handle_client_process ml client_socket (String a b) v o t
               Hrx Hparse Hproc).
    destruct o as [response|e|]; cbn [outcome_of trace_of fst snd].
    + split.
      * split; [discriminate|].
        intros (bytes & v' & E & _ & Hp & Hev). injection E as <-.
        rewrite Hparse in Hp. injection Hp as <-.
        apply Hu in Hev. discriminate Hev.
      * intros _. split; [reflexivity|]. split.
        -- cbn [closes]. rewrite closes_app, Hc. reflexivity.
        -- exists [http_ok response]. cbn [sent].
           rewrite sent_app, Hs. split; reflexivity.
    + split.
      * split; [discriminate|].
        intros (bytes & v' & E & _ & Hp & Hev). injection E as <-.
        rewrite Hparse in Hp. injection Hp as <-.
        apply Hu in Hev. discriminate Hev.
      * intros _. split; [reflexivity|]. split.
        -- cbn [closes]. rewrite closes_app, Hc. reflexivity.
        -- exists [http_error (error_body (what e))]. cbn [sent].
           rewrite sent_app, Hs. split; reflexivity.
    + split; [|congruence]. split; [|reflexivity]. intros _.
      exists (String a b), v.
      split; [reflexivity|]. split; [discriminate|].
      split; [exact Hparse|]. now apply Hu.
  - rewrite (handle_client_decode_error ml client_socket (String a b) e
               Hrx Hparse).
    cbn [outcome_of trace_of fst snd]. split.
    + split; [discriminate|].
      intros (bytes & v' & E & _ & Hp & _). injection E as <-.
      rewrite Hparse in Hp. discriminate Hp.
    + intros _. repeat split.
      exists [http_error (error_body (what e))]. split; reflexivity.
Qed.

(** X2: every exception raised while a request is decoded or evaluated is
    caught in the handler: the client receives the 500 response whose
    body holds the exception's message, the message is logged, and the
    socket is closed. *)
Theorem X2_exceptions_become_error_responses
    (ml : ModelLoader) (client_socket : Z) (bytes : string) (e : exn) :
  stake 4095 bytes <> "" ->
  (parse_input_json (extract_body (c_string (stake 4095 bytes))) = Throw e
   \/ exists v,
        parse_input_json (extract_body (c_string (stake 4095 bytes))) = Ok v
        /\ outcome_of (process_inference ml v) = Throw e) ->
  let r := handle_client ml client_socket (RecvBytes bytes) in
  outcome_of r = Ok tt
  /\ sent (trace_of r)
     = [(client_socket, http_error (error_body (what e)))]
  /\ closes (trace_of r) = [client_socket]
  /\ In ("Error handling client: " ++ what e) (errors_logged (trace_of r)).
Proof.
  intros Hrx [Hparse | (v & Hparse & Hproc)] r; subst r.
  - rewrite (handle_client_decode_error ml client_socket bytes e Hrx Hparse).
    repeat split. simpl. auto.
  - destruct (process_inference_quiet ml v) as [Hs Hc].
    destruct (process_inference ml v) as [o t] eqn:E.
    unfold outcome_of in Hproc. cbn [fst] in Hproc. subst o.
    unfold trace_of in Hs, Hc. cbn [snd] in Hs, Hc.
    rewrite (handle_client_process ml client_socket bytes v _ _ Hrx Hparse E).
    cbn zeta. unfold outcome_of, trace_of. cbn [fst snd sent closes].
    rewrite sent_app, closes_app, Hs, Hc. repeat split.
    cbn [errors_logged].
    assert (Happ : forall a b, errors_logged (a ++ b)
                               = (errors_logged a ++ errors_logged b)%list).
    { induction a as [|x a IH]; intros b; simpl; [reflexivity|].
      destruct x; simpl; now rewrite IH. }
    rewrite Happ. apply in_or_app. right. simpl. auto.
Qed.

Lemma X2_exceptions_witness :
  sent (trace_of (handle_client (ModelLoader_new "financial_model.pt") 5
                    (RecvBytes payload_huge)))
  = [(5, http_error ("{" ++ dq ++ "error" ++ dq ++ ": " ++ dq ++ "stof"
                     ++ dq ++ "}"))].
Proof.
  destruct (X2_exceptions_become_error_responses
              (ModelLoader_new "financial_model.pt") 5 payload_huge
              (out_of_range "stof")) as (_ & H & _).
  - discriminate.
  - left. vm_compute. reflexivity.
  - exact H.
Defined.

(** ** The engine behind a connection *)

Lemma size_check_passes ml (v : list float) :
  Z.of_nat (List.length v) = to_size_t (get_input_size ml) ->
  negb (Z.of_nat (List.length v) =? to_size_t (get_input_size ml)) = false.
Proof. intros H. apply negb_false_iff. now apply Z.eqb_eq. Qed.

Lemma process_inference_unloaded ml v :
  loaded_ ml = false ->
  Z.of_nat (List.length v) = to_size_t (get_input_size ml) ->
  process_inference ml v
  = (Throw (runtime_error "Model not loaded"), [EvPredict (from_blob v)]).
Proof.
  intros Hl Hw. unfold process_inference, predict.
  rewrite (size_check_passes ml v Hw), Hl. reflexivity.
Qed.

Lemma process_inference_forward_throws ml v e :
  loaded_ ml = true ->
  Z.of_nat (List.length v) = to_size_t (get_input_size ml) ->
  forward (model_ ml) (from_blob v) = Throw e ->
  process_inference ml v
  = (Throw e, [EvPredict (from_blob v); EvForward (from_blob v);
               EvCerr ("Error during inference: " ++ what e)]).
Proof.
  intros Hl Hw Hf. unfold process_inference, predict.
  rewrite (size_check_passes ml v Hw), Hl.
  cbn [negb bind emit try_catch lift]. rewrite Hf. reflexivity.
Qed.

Lemma dict_contains_app k (a b : Dict) :
  dict_contains k (a ++ b)%list
  = (dict_contains k a || dict_contains k b)%bool.
Proof.
  induction a as [|[k' v] a IH]; simpl; [reflexivity|].
  now rewrite IH, orb_assoc.
Qed.

Lemma dict_contains_in k (d : Dict) :
  dict_contains k d = true <-> In k (map fst d).
Proof.
  induction d as [|[k' v] d IH]; simpl; [split; [discriminate | tauto]|].
  rewrite orb_true_iff, IH, String.eqb_eq. split; intros [H | H]; auto.
Qed.

(** With distinct names the loop of [predict] copies the entries in order. *)
Lemma convert_items_result r : forall acc,
  NoDup (map fst acc ++ map fst r)%list ->
  convert_items
    (map (fun kv => (IV_String (fst kv), IV_Tensor (tensor_of_row (snd kv)))) r)
    acc
  = Ok (acc ++ dict_of_result r)%list.
Proof.
  induction r as [|[k xs] r IH]; intros acc Hnd; cbn [map convert_items].
  - now rewrite app_nil_r.
  - cbn [toStringRef toTensor obind fst snd]. unfold dict_insert.
    assert (Hk : dict_contains k acc = false).
    { destruct (dict_contains k acc) eqn:E; [|reflexivity].
      apply dict_contains_in in E. cbn [map fst] in Hnd.
      apply NoDup_remove_2 in Hnd. exfalso. apply Hnd.
      apply in_or_app. now left. }
    rewrite Hk, IH.
    + cbn [dict_of_result map fst snd]. now rewrite <- app_assoc.
    + rewrite map_app. cbn [map fst]. rewrite <- app_assoc. exact Hnd.
Qed.

Lemma process_inference_ok ml v r :
  loaded_ ml = true ->
  Z.of_nat (List.length v) = to_size_t (get_input_size ml) ->
  forward (model_ ml) (from_blob v) = Ok (ivalue_of_result r) ->
  NoDup (map fst r) ->
  process_inference ml v
  = (Ok ("{" ++ String.concat "," (map encode_entry r) ++ "}"),
     [EvPredict (from_blob v); EvForward (from_blob v)]).
Proof.
  intros Hl Hw Hf Hnd. unfold process_inference, predict.
  rewrite (size_check_passes ml v Hw), Hl.
  cbn [negb bind emit try_catch lift]. rewrite Hf.
  unfold ivalue_of_result. cbn [toGenericDict].
  rewrite (convert_items_result r []) by exact Hnd.
  cbn [app bind try_catch lift]. now rewrite outputs_to_json_result.
Qed.

(** X3: a request of the right width that reaches a loader whose model is
    not loaded is answered with the error [Model not loaded]; [predict]
    is entered but the module's [forward] is never called. *)
Theorem X3_unloaded_model_is_refused
    (ml : ModelLoader) (client_socket : Z) (bytes : string) (v : list float) :
  stake 4095 bytes <> "" ->
  parse_input_json (extract_body (c_string (stake 4095 bytes))) = Ok v ->
  Z.of_nat (List.length v) = to_size_t (get_input_size ml) ->
  is_loaded ml = false ->
  let r := handle_client ml client_socket (RecvBytes bytes) in
  sent (trace_of r)
  = [(client_socket, http_error (error_body "Model not loaded"))]
  /\ engine_calls (trace_of r) = [from_blob v]
  /\ forward_calls (trace_of r) = [].
Proof.
  intros Hrx Hparse Hw Hl r. subst r.
  rewrite (handle_client_process ml client_socket bytes v _ _ Hrx Hparse
             (process_inference_unloaded ml v Hl Hw)).
  repeat split.
Qed.

Lemma X3_unloaded_witness :
  sent (trace_of (handle_client (ModelLoader_new "financial_model.pt") 5
                    (RecvBytes payload_sixteen)))
  = [(5, http_error (error_body "Model not loaded"))].
Proof.
  destruct (X3_unloaded_model_is_refused
              (ModelLoader_new "financial_model.pt") 5 payload_sixteen
              features_sixteen) as (H & _).
  - discriminate.
  - vm_compute. reflexivity.
  - reflexivity.
  - reflexivity.
  - exact H.
Defined.

(** X4: when the module's [forward] throws, the exception is logged by
    [predict], rethrown, logged again by the handler and answered with the
    500 response that holds its message; [forward] was called once, with
    the [1 x n] tensor of the decoded features. *)
Theorem X4_engine_failure_is_reported
    (ml : ModelLoader) (client_socket : Z) (bytes : string) (v : list float)
    (e : exn) :
  stake 4095 bytes <> "" ->
  parse_input_json (extract_body (c_string (stake 4095 bytes))) = Ok v ->
  Z.of_nat (List.length v) = to_size_t (get_input_size ml) ->
  is_loaded ml = true ->
  forward (model_ ml) (from_blob v) = Throw e ->
  let r := handle_client ml client_socket (RecvBytes bytes) in
  sent (trace_of r)
  = [(client_socket, http_error (error_body (what e)))]
  /\ forward_calls (trace_of r) = [from_blob v]
  /\ errors_logged (trace_of r)
     = ["Error during inference: " ++ what e;
        "Error handling client: " ++ what e].
Proof.
  intros Hrx Hparse Hw Hl Hf r. subst r.
  rewrite (handle_client_process ml client_socket bytes v _ _ Hrx Hparse
             (process_inference_forward_throws ml v e Hl Hw Hf)).
  repeat split.
Qed.

Lemma X4_engine_failure_witness :
  sent (trace_of (handle_client (loader_with failing_module 3) 5
                    (RecvBytes payload_three)))
  = [(5, http_error (error_body "shape mismatch"))].
Proof.
  destruct (X4_engine_failure_is_reported
              (loader_with failing_module 3) 5 payload_three
              [float_1; float_2; FFinite false 12582912 (-22)]
              (c10_Error "shape mismatch")) as (H & _).
  - discriminate.
  - vm_compute. reflexivity.
  - reflexivity.
  - reflexivity.
  - reflexivity.
  - exact H.
Defined.

(** X5: the whole success path.  A request whose decoded vector has the
    expected width, served by a loaded model whose [forward] returns a
    dictionary of distinct names with [1 x k] float tensors, is answered
    with the 200 response whose body encodes those entries in order; the
    model is evaluated exactly once, on the [1 x n] float tensor holding
    the decoded features in order, and the socket is closed. *)
Theorem X5_success_path
    (ml : ModelLoader) (client_socket : Z) (bytes : string) (v : list float)
    (r : list (string * list float)) :
  stake 4095 bytes <> "" ->
  parse_input_json (extract_body (c_string (stake 4095 bytes))) = Ok v ->
  Z.of_nat (List.length v) = to_size_t (get_input_size ml) ->
  is_loaded ml = true ->
  forward (model_ ml) (from_blob v) = Ok (ivalue_of_result r) ->
  NoDup (map fst r) ->
  let h := handle_client ml client_socket (RecvBytes bytes) in
  outcome_of h = Ok tt
  /\ sent (trace_of h)
     = [(client_socket,
         http_ok ("{" ++ String.concat "," (map encode_entry r) ++ "}"))]
  /\ forward_calls (trace_of h)
     = [{| dtype := kFloat; sizes := [1; Z.of_nat (List.length v)];
           data := v |}]
  /\ closes (trace_of h) = [client_socket]
  /\ errors_logged (trace_of h) = [].
Proof.
  intros Hrx Hparse Hw Hl Hf Hnd h. subst h.
  rewrite (handle_client_process ml client_socket bytes v _ _ Hrx Hparse
             (process_inference_ok ml v r Hl Hw Hf Hnd)).
  repeat split.
Qed.

Lemma X5_success_witness :
  sent (trace_of (handle_client (loader_with score_module 3) 5
                    (RecvBytes payload_three)))
  = [(5, http_ok ("{" ++ dq ++ "score" ++ dq ++ ":[0.420000]}"))].
Proof.
  destruct (X5_success_path
              (loader_with score_module 3) 5 payload_three
              [float_1; float_2; FFinite false 12582912 (-22)]
              [("score", [float_042])]) as (_ & H & _).
  - discriminate.
  - vm_compute. reflexivity.
  - reflexivity.
  - reflexivity.
  - reflexivity.
  - repeat constructor. simpl. tauto.
  - exact H.
Defined.

(** ** Reading the request *)

Lemma handle_client_by_body ml client_socket bytes :
  stake 4095 bytes <> "" ->
  handle_client ml client_socket (RecvBytes bytes)
  = (cout ("Received request: "
           ++ stake 100 (c_string (stake 4095 bytes)) ++ "...") ;;;
     serve_body ml client_socket
       (extract_body (c_string (stake 4095 bytes)))).
Proof.
  intros Hrx. unfold handle_client, serve_body.
  rewrite (received_something bytes Hrx).
  cbn [bind cout emit lift try_catch].
  destruct (parse_input_json (extract_body (c_string (stake 4095 bytes))))
    as [v|e|]; cbn [bind cout emit lift try_catch cerr app];
    [|reflexivity|reflexivity].
  destruct (process_inference ml v) as [[response|e|] t];
    cbn [bind cout emit lift try_catch cerr app]; reflexivity.
Qed.

Lemma stake_all n : forall s, (slen s <= n)%nat -> stake n s = s.
Proof.
  induction n as [|n IH]; intros [|a s] H; simpl in *; try reflexivity;
    [lia|]. rewrite IH; [reflexivity | lia].
Qed.

Lemma c_string_no_nul s : has_nul s = false -> c_string s = s.
Proof.
  induction s as [|a s IH]; simpl; [reflexivity|].
  intros H. apply orb_false_iff in H as [Ha Hs]. now rewrite Ha, IH.
Qed.

Lemma has_nul_app a b : has_nul (a ++ b) = (has_nul a || has_nul b)%bool.
Proof.
  induction a as [|x a IH]; simpl; [reflexivity|].
  now rewrite IH, orb_assoc.
Qed.

Lemma sdrop_app a b : sdrop (slen a) (a ++ b) = b.
Proof. induction a as [|x a IH]; simpl; [now destruct b | exact IH]. Qed.

Lemma find_after_first pat : forall a b,
  occurs_before pat (a ++ pat ++ b) (slen a) = false ->
  find_after pat (a ++ pat ++ b) = Some b.
Proof.
  induction a as [|x a IH]; intros b H.
  - cbn [append]. rewrite find_after_prefix by apply prefix_app.
    now rewrite sdrop_app.
  - cbn [slen String.length occurs_before append] in H.
    apply orb_false_iff in H as [Hp Hrest].
    cbn [append find_after]. rewrite Hp. now apply IH.
Qed.

Lemma find_after_absent pat s :
  contains pat s = false -> find_after pat s = None.
Proof. unfold contains. now destruct (find_after pat s). Qed.

(** X6: a request framed as HTTP - a head without blank line, a blank
    line, a body - is served exactly as the bare body is, apart from the
    line logged on arrival, provided the request fits the buffer, holds no
    NUL byte, and the body is not empty and holds no blank line itself. *)
Theorem X6_framed_request_is_served_as_its_body
    (ml : ModelLoader) (client_socket : Z) (head body : string) :
  (slen (head ++ (CRLF ++ CRLF) ++ body) <= 4095)%nat ->
  has_nul (head ++ (CRLF ++ CRLF) ++ body) = false ->
  occurs_before (CRLF ++ CRLF) (head ++ (CRLF ++ CRLF) ++ body) (slen head)
  = false ->
  contains (CRLF ++ CRLF) body = false ->
  body <> "" ->
  let framed :=
    handle_client ml client_socket
      (RecvBytes (head ++ (CRLF ++ CRLF) ++ body)) in
  let bare := handle_client ml client_socket (RecvBytes body) in
  outcome_of framed = outcome_of bare
  /\ tl (trace_of framed) = tl (trace_of bare).
Proof.
  intros Hlen Hnul Hfirst Hbody Hne framed bare. subst framed bare.
  assert (Hlen' : (slen body <= 4095)%nat)
    by (rewrite !slen_app in Hlen; lia).
  assert (Hnul' : has_nul body = false).
  { rewrite !has_nul_app in Hnul.
    now repeat (apply orb_false_iff in Hnul as [_ Hnul]). }
  rewrite !handle_client_by_body.
  - rewrite (stake_all 4095 body Hlen'), (stake_all 4095 _ Hlen).
    rewrite (c_string_no_nul body Hnul'), (c_string_no_nul _ Hnul).
    unfold extract_body.
    rewrite (find_after_first _ _ _ Hfirst), (find_after_absent _ _ Hbody).
    unfold cout, emit, bind, outcome_of, trace_of.
    destruct (serve_body ml client_socket body) as [o t]. split; reflexivity.
  - rewrite stake_all by assumption. exact Hne.
  - rewrite stake_all by assumption. destruct head; discriminate.
Qed.

Lemma X6_framed_request_witness :
  tl (trace_of (handle_client (loader_width 3) 5 (RecvBytes request_framed)))
  = tl (trace_of (handle_client (loader_width 3) 5 (RecvBytes payload_two))).
Proof.
  apply (X6_framed_request_is_served_as_its_body (loader_width 3) 5
           ("POST / HTTP/1.1" ++ CRLF ++ "Host: localhost") payload_two).
  - apply Nat.leb_le. reflexivity.
  - reflexivity.
  - reflexivity.
  - reflexivity.
  - discriminate.
Defined.

(** X7: the handler reads at most 4095 bytes: whatever follows the first
    4095 bytes of what the peer sent has no influence on what the handler
    does. *)
Theorem X7_request_is_cut_at_4095_bytes
    (ml : ModelLoader) (client_socket : Z) (first more : string) :
  slen first = 4095%nat ->
  handle_client ml client_socket (RecvBytes (first ++ more))
  = handle_client ml client_socket (RecvBytes first).
Proof.
  intros Hlen. unfold handle_client. rewrite <- Hlen.
  rewrite stake_app.
  now rewrite (stake_all (slen first) first) by lia.
Qed.

Lemma c_string_cut_at_nul n : forall a b,
  has_nul a = false -> (slen a < n)%nat ->
  c_string (stake n (a ++ NUL ++ b)) = a.
Proof.
  induction n as [|n IH]; intros [|x a] b Hn Hl; simpl in *; try lia.
  - reflexivity.
  - apply orb_false_iff in Hn as [Hx Ha]. rewrite Hx.
    rewrite IH; [reflexivity | assumption | lia].
Qed.

(** X8: a NUL byte ends the request: when the received bytes hold a NUL
    within the first 4095, the handler does exactly what it does for the
    bytes before the first NUL, if there are any. *)
Theorem X8_request_ends_at_first_nul
    (ml : ModelLoader) (client_socket : Z) (before after : string) :
  before <> "" ->
  has_nul before = false ->
  (slen before < 4095)%nat ->
  handle_client ml client_socket (RecvBytes (before ++ NUL ++ after))
  = handle_client ml client_socket (RecvBytes before).
Proof.
  intros Hne Hnul Hlen.
  rewrite !handle_client_by_body.
  - rewrite (c_string_cut_at_nul 4095 before after Hnul Hlen).
    rewrite (stake_all 4095 before) by lia.
    now rewrite (c_string_no_nul before Hnul).
  - rewrite stake_all by lia. exact Hne.
  - destruct before; [congruence | discriminate].
Qed.

(** ** The response envelope read back *)

Lemma prefix_head_differs p pat a s :
  Ascii.eqb p a = false -> String.prefix (String p pat) (String a s) = false.
Proof.
  intros H. cbn [String.prefix].
  destruct (ascii_dec p a) as [->|]; [|reflexivity].
  now rewrite Ascii.eqb_refl in H.
Qed.

Lemma find_after_step pat a s :
  String.prefix pat (String a s) = false ->
  find_after pat (String a s) = find_after pat s.
Proof. intros H. cbn [find_after]. now rewrite H. Qed.

(** A stretch without the first character of [pat] holds no occurrence. *)
Lemma find_after_skip p pat : forall seg rest,
  all_in (CNoneOf [p]) seg = true ->
  find_after (String p pat) (seg ++ rest) = find_after (String p pat) rest.
Proof.
  induction seg as [|a seg IH]; intros rest H; [reflexivity|].
  cbn [all_in in_class ascii_in existsb] in H.
  apply andb_true_iff in H as [Ha Hseg].
  rewrite orb_false_r in Ha. apply negb_true_iff in Ha.
  cbn [append]. rewrite find_after_step.
  - now apply IH.
  - apply prefix_head_differs. now rewrite Ascii.eqb_sym.
Qed.

Lemma blank_line_not_here c rest :
  Ascii.eqb c "013" = false ->
  String.prefix (CRLF ++ CRLF)
    (String "013" (String "010" (String c rest))) = false.
Proof.
  intros Hc. unfold CRLF, LF. cbn [append String.prefix].
  destruct (ascii_dec "013" "013") as [_|N]; [|congruence].
  destruct (ascii_dec "010" "010") as [_|N]; [|congruence].
  destruct (ascii_dec "013" c) as [<-|_]; [discriminate Hc | reflexivity].
Qed.

(** A line that ends in CR LF and is followed by another line. *)
Lemma find_after_line seg c rest :
  all_in (CNoneOf ["013"%char]) seg = true -> Ascii.eqb c "013" = false ->
  find_after (CRLF ++ CRLF) (seg ++ CRLF ++ String c rest)
  = find_after (CRLF ++ CRLF) (String c rest).
Proof.
  intros Hseg Hc.
  change (CRLF ++ CRLF) with (String "013" (LF ++ CRLF)).
  rewrite find_after_skip by exact Hseg.
  change (String "013" (LF ++ CRLF)) with (CRLF ++ CRLF).
  change (CRLF ++ String c rest)
    with (String "013" (String "010" (String c rest))).
  rewrite find_after_step by now apply blank_line_not_here.
  rewrite find_after_step; [reflexivity|].
  now apply prefix_head_differs.
Qed.

(** The last line before the blank line. *)
Lemma find_after_last_line seg body :
  all_in (CNoneOf ["013"%char]) seg = true ->
  find_after (CRLF ++ CRLF) (seg ++ CRLF ++ CRLF ++ body) = Some body.
Proof.
  intros Hseg.
  change (CRLF ++ CRLF) with (String "013" (LF ++ CRLF)) at 1.
  rewrite find_after_skip by exact Hseg.
  change (String "013" (LF ++ CRLF)) with (CRLF ++ CRLF).
  change (CRLF ++ CRLF ++ body) with ((CRLF ++ CRLF) ++ body).
  rewrite find_after_prefix by apply prefix_app.
  apply f_equal, (sdrop_app (CRLF ++ CRLF) body).
Qed.

Lemma digits_no_cr s :
  all_in digit s = true -> all_in (CNoneOf ["013"%char]) s = true.
Proof.
  induction s as [|a s IH]; [reflexivity|]. cbn [all_in].
  intros H. apply andb_true_iff in H as [Ha Hs]. rewrite (IH Hs), andb_true_r.
  change (in_class digit a) with (is_digit a) in Ha.
  cbn [in_class ascii_in existsb]. rewrite orb_false_r.
  apply negb_true_iff.
  destruct (Ascii.eqb_spec a "013"); [subst; discriminate|].
  reflexivity.
Qed.

Lemma content_length_line n :
  all_in (CNoneOf ["013"%char])
    ("ontent-Length: " ++ string_of_Z (Z.of_nat n)) = true.
Proof.
  rewrite all_in_app.
  rewrite (digits_no_cr (string_of_Z (Z.of_nat n)))
    by (apply string_of_Z_digits; lia).
  reflexivity.
Qed.

Lemma find_after_line' a seg c rest :
  all_in (CNoneOf ["013"%char]) (String a seg) = true ->
  Ascii.eqb c "013" = false ->
  find_after (CRLF ++ CRLF) (String a (seg ++ CRLF ++ String c rest))
  = find_after (CRLF ++ CRLF) (String c rest).
Proof. apply (find_after_line (String a seg)). Qed.

Lemma find_after_last_line' a seg body :
  all_in (CNoneOf ["013"%char]) (String a seg) = true ->
  find_after (CRLF ++ CRLF) (String a (seg ++ CRLF ++ CRLF ++ body))
  = Some body.
Proof. apply (find_after_last_line (String a seg)). Qed.

(** X9: both response envelopes put the body right after the first blank
    line: reading a success or an error response with the body extraction
    the handler applies to requests gives back the body, whatever the body
    is. *)
Theorem X9_response_body_follows_first_blank_line (body : string) :
  extract_body (http_ok body) = body
  /\ extract_body (http_error body) = body.
Proof.
  split; unfold extract_body.
  - replace (http_ok body)
      with (String "H" ("TTP/1.1 200 OK" ++ CRLF
            ++ String "C" ("ontent-Type: application/json" ++ CRLF
            ++ String "C" (("ontent-Length: "
                            ++ string_of_Z (Z.of_nat (slen body))) ++ CRLF
            ++ String "A" ("ccess-Control-Allow-Origin: *"
                           ++ CRLF ++ CRLF ++ body)))))
      by (unfold http_ok; rewrite !sapp_assoc; reflexivity).
    rewrite find_after_line' by reflexivity.
    rewrite find_after_line' by reflexivity.
    rewrite find_after_line'
      by (try reflexivity; cbn [all_in]; now rewrite content_length_line).
    now rewrite find_after_last_line' by reflexivity.
  - replace (http_error body)
      with (String "H" ("TTP/1.1 500 Internal Server Error" ++ CRLF
            ++ String "C" ("ontent-Type: application/json" ++ CRLF
            ++ String "C" (("ontent-Length: "
                            ++ string_of_Z (Z.of_nat (slen body)))
                           ++ CRLF ++ CRLF ++ body))))
      by (unfold http_error; rewrite !sapp_assoc; reflexivity).
    rewrite find_after_line' by reflexivity.
    rewrite find_after_line' by reflexivity.
    now rewrite find_after_last_line'
      by (cbn [all_in]; now rewrite content_length_line).
Qed.

(** ** Encoding tensors of any shape *)

Lemma skipn_nth_error {A} (l : list A) : forall i x,
  nth_error l i = Some x -> skipn i l = x :: skipn (S i) l.
Proof.
  induction l as [|y l IH]; intros [|i] x H; simpl in *; try discriminate.
  - now injection H as ->.
  - now apply IH.
Qed.

Lemma row_to_json_from t : forall count i json,
  (i + count <= List.length (data t))%nat ->
  row_to_json t i count json
  = Ok (json
        ++ (if Nat.ltb 0 i
            then comma_before (map fixed6 (firstn count (skipn i (data t))))
            else String.concat ","
                   (map fixed6 (firstn count (skipn i (data t)))))).
Proof.
  induction count as [|c IH]; intros i json Hb.
  - cbn [row_to_json firstn map comma_before String.concat].
    destruct (Nat.ltb 0 i); now rewrite sapp_nil_r.
  - cbn [row_to_json].
    destruct (nth_error (data t) i) as [x|] eqn:E.
    2:{ apply nth_error_None in E. lia. }
    rewrite (skipn_nth_error _ _ _ E). cbn [firstn map].
    rewrite IH by lia. cbn [Nat.ltb Nat.leb].
    destruct i; cbn [comma_before];
      rewrite ?concat_comma_before; now rewrite !sapp_assoc.
Qed.

Lemma row_to_json_first_row t n json :
  (n <= List.length (data t))%nat ->
  row_to_json t 0 n json
  = Ok (json ++ String.concat "," (map fixed6 (firstn n (data t)))).
Proof. intros Hn. now rewrite row_to_json_from by lia. Qed.

Lemma accessor_of_matrix t :
  is_float_matrix t = true ->
  exists n0 n1, accessor_float_2 t = Ok (n0, n1)
                /\ Z.to_nat n1 = columns t.
Proof.
  unfold is_float_matrix, accessor_float_2, columns.
  destruct (dtype t); try discriminate.
  destruct (sizes t) as [|n0 [|n1 [|]]]; try discriminate. intros _.
  exists n0, n1. auto.
Qed.

Lemma items_to_json_rows items : forall first json,
  Forall (fun kv => has_first_row (snd kv) = true) items ->
  items_to_json items first json
  = Ok (json
        ++ (if first
            then String.concat ","
                   (map (fun kv => encode_entry (fst kv, first_row (snd kv)))
                      items)
            else comma_before
                   (map (fun kv => encode_entry (fst kv, first_row (snd kv)))
                      items))).
Proof.
  induction items as [|[k t] items IH]; intros first json Hall.
  - destruct first; simpl; now rewrite sapp_nil_r.
  - inv Hall. cbn [snd] in *.
    match goal with H : has_first_row t = true |- _ =>
      unfold has_first_row in H; apply andb_true_iff in H as [Hm Hrow];
      apply Nat.leb_le in Hrow end.
    destruct (accessor_of_matrix t Hm) as (n0 & n1 & Ha & Hn1).
    cbn [items_to_json]. rewrite Ha. cbn [obind]. rewrite Hn1.
    rewrite row_to_json_first_row by exact Hrow. cbn [obind].
    rewrite IH by assumption.
    destruct first; cbn [negb map]; rewrite ?concat_comma_before;
      cbn [comma_before]; unfold encode_entry, first_row; cbn [fst snd];
      now rewrite !sapp_assoc.
Qed.

Lemma row_to_json_ok_bound t : forall count i json out,
  row_to_json t i count json = Ok out ->
  (count = 0 \/ i + count <= List.length (data t))%nat.
Proof.
  induction count as [|c IH]; intros i json out H; [now left|]. right.
  cbn [row_to_json] in H.
  destruct (nth_error (data t) i) as [x|] eqn:E; [|discriminate].
  assert (i < List.length (data t))%nat
    by (apply nth_error_Some; congruence).
  apply IH in H as [-> | H]; lia.
Qed.

Lemma items_to_json_ok_shape items : forall first json out,
  items_to_json items first json = Ok out ->
  Forall (fun kv => has_first_row (snd kv) = true) items.
Proof.
  induction items as [|[k t] items IH]; intros first json out H;
    [constructor|].
  cbn [items_to_json] in H.
  destruct (accessor_float_2 t) as [[n0 n1]| |] eqn:Ha; cbn [obind] in H;
    try discriminate.
  destruct (row_to_json t 0 (Z.to_nat n1) _) as [j| |] eqn:Hr;
    cbn [obind] in H; try discriminate.
  constructor; [|eapply IH; eassumption]. cbn [snd].
  unfold has_first_row, is_float_matrix, columns.
  unfold accessor_float_2 in Ha.
  destruct (dtype t); try discriminate.
  destruct (sizes t) as [|m0 [|m1 [|]]]; try discriminate.
  injection Ha as -> ->. cbn [andb]. apply Nat.leb_le.
  apply row_to_json_ok_bound in Hr. lia.
Qed.

(** X10: [outputs_to_json] returns a text exactly when every output is a
    two-dimensional float tensor that has the elements of its row 0; the
    text then lists, per output in dictionary order, the values of row 0
    only: further rows of a batch are not encoded. *)
Theorem X10_encoder_writes_first_rows (outputs : Dict) :
  (Forall (fun kv => has_first_row (snd kv) = true) outputs ->
   outputs_to_json outputs
   = Ok ("{"
         ++ String.concat ","
              (map (fun kv => encode_entry (fst kv, first_row (snd kv)))
                 outputs)
         ++ "}"))
  /\ (forall json, outputs_to_json outputs = Ok json ->
        Forall (fun kv => has_first_row (snd kv) = true) outputs).
Proof.
  split.
  - intros Hall. unfold outputs_to_json.
    rewrite (items_to_json_rows outputs true "{" Hall). cbn [obind].
    now rewrite sapp_assoc.
  - intros json H. unfold outputs_to_json in H.
    destruct (items_to_json outputs true "{") as [j| |] eqn:E;
      cbn [obind] in H; try discriminate.
    eapply items_to_json_ok_shape; eassumption.
Qed.

Lemma X10_encoder_witness :
  outputs_to_json [("score", batch_of_two)]
  = Ok ("{" ++ dq ++ "score" ++ dq ++ ":[1.000000,2.000000]}").
Proof.
  apply (proj1 (X10_encoder_writes_first_rows [("score", batch_of_two)])).
  repeat constructor.
Defined.

Lemma row_to_json_missing t : forall count i json,
  (List.length (data t) < i + count)%nat -> (0 < count)%nat ->
  row_to_json t i count json = Undefined.
Proof.
  induction count as [|c IH]; intros i json Hb Hc; [lia|].
  cbn [row_to_json].
  destruct (nth_error (data t) i) as [x|] eqn:E; [|reflexivity].
  assert (i < List.length (data t))%nat by (apply nth_error_Some; congruence).
  apply IH; lia.
Qed.

Lemma items_to_json_app (good : Dict) : forall (more : Dict) first json,
  Forall (fun kv => has_first_row (snd kv) = true) good ->
  exists json',
    items_to_json (good ++ more)%list first json
    = items_to_json more (first && match good with [] => true | _ => false end)
        json'.
Proof.
  induction good as [|[k t] good IH]; intros more first json Hall.
  - exists json. now rewrite andb_true_r.
  - inv Hall. cbn [snd] in *.
    match goal with H : has_first_row t = true |- _ =>
      unfold has_first_row in H; apply andb_true_iff in H as [Hm Hrow];
      apply Nat.leb_le in Hrow end.
    destruct (accessor_of_matrix t Hm) as (n0 & n1 & Ha & Hn1).
    cbn [app items_to_json]. rewrite Ha. cbn [obind]. rewrite Hn1.
    rewrite row_to_json_first_row by exact Hrow. cbn [obind].
    match goal with
    | |- context [items_to_json (good ++ more)%list false ?j] =>
        destruct (IH more false j) as (json' & ->); [assumption|]
    end.
    exists json'. rewrite andb_false_r. reflexivity.
Qed.

(** X11: how encoding fails.  At the first output that is not a
    two-dimensional float tensor [outputs_to_json] throws a libtorch error
    and returns no text; at the first float matrix that has columns but
    lacks row 0 - an empty batch - it reads outside the tensor. *)
Theorem X11_encoder_failure_modes
    (good : Dict) (key : string) (t : Tensor) (rest : Dict) :
  Forall (fun kv => has_first_row (snd kv) = true) good ->
  (is_float_matrix t = false ->
   exists msg,
     outputs_to_json (good ++ (key, t) :: rest)%list
     = Throw (c10_Error msg))
  /\ (is_float_matrix t = true ->
      (List.length (data t) < columns t)%nat ->
      outputs_to_json (good ++ (key, t) :: rest)%list = Undefined).
Proof.
  intros Hgood. unfold outputs_to_json.
  destruct (items_to_json_app good ((key, t) :: rest) true "{" Hgood)
    as (json' & ->).
  cbn [items_to_json]. split.
  - intros Hm. unfold is_float_matrix in Hm. unfold accessor_float_2.
    destruct (dtype t); destruct (sizes t) as [|n0 [|n1 [|]]];
      try discriminate; cbn [obind]; eauto.
  - intros Hm Hrow.
    destruct (accessor_of_matrix t Hm) as (n0 & n1 & Ha & Hn1).
    rewrite Ha. cbn [obind]. rewrite Hn1.
    rewrite row_to_json_missing by lia. reflexivity.
Qed.

Lemma X11_encoder_failure_witness :
  outputs_to_json [("score", batch_of_two); ("risk", empty_batch)]
  = Undefined.
Proof.
  destruct (X11_encoder_failure_modes
              [("score", batch_of_two)] "risk" empty_batch []) as [_ H].
  - repeat constructor.
  - apply H; [reflexivity | apply Nat.ltb_lt; reflexivity].
Defined.

(** ** The accept loop while the server runs *)

Lemma errors_logged_app (a b : list event) :
  errors_logged (a ++ b) = (errors_logged a ++ errors_logged b)%list.
Proof.
  induction a as [|e a IH]; simpl; [reflexivity|].
  destruct e; simpl; now rewrite IH.
Qed.

Lemma serving_round server_socket r st :
  running st = true -> pc st = AtWhile ->
  accept_loop server_socket [LoopStep; AcceptReturns r] st
  = {| running := true; pc := AtWhile;
       out := (out st
               ++ (if r <? 0 then [EvCerr "Error accepting connection"]
                   else [EvThread r]))%list |}.
Proof.
  destruct st as [rn p o]. cbn [running pc]. intros -> ->.
  cbn [accept_loop fold_left loop_step pc running say out].
  destruct (r <? 0); unfold say; cbn [running out pc];
    now rewrite app_nil_r.
Qed.

Lemma serving_loop server_socket accepts : forall st,
  running st = true -> pc st = AtWhile ->
  running (accept_loop server_socket (serve_schedule accepts) st) = true
  /\ pc (accept_loop server_socket (serve_schedule accepts) st) = AtWhile
  /\ dispatched (out (accept_loop server_socket (serve_schedule accepts) st))
     = (dispatched (out st) ++ accepted accepts)%list
  /\ errors_logged
       (out (accept_loop server_socket (serve_schedule accepts) st))
     = (errors_logged (out st)
        ++ map (fun _ => "Error accepting connection")
             (accept_failures accepts))%list
  /\ closes (out (accept_loop server_socket (serve_schedule accepts) st))
     = closes (out st).
Proof.
  induction accepts as [|r accepts IH]; intros st Hr Hp.
  - cbn. rewrite !app_nil_r. auto.
  - change (serve_schedule (r :: accepts))
      with ([LoopStep; AcceptReturns r] ++ serve_schedule accepts)%list.
    unfold accept_loop. rewrite fold_left_app.
    fold (accept_loop server_socket [LoopStep; AcceptReturns r] st).
    fold (accept_loop server_socket (serve_schedule accepts)
            (accept_loop server_socket [LoopStep; AcceptReturns r] st)).
    rewrite (serving_round server_socket r st Hr Hp).
    match goal with
    | |- context [accept_loop _ (serve_schedule accepts) ?s] =>
        destruct (IH s eq_refl eq_refl) as (H1 & H2 & H3 & H4 & H5)
    end.
    rewrite H1, H2, H3, H4, H5. cbn [out].
    rewrite dispatched_app, errors_logged_app, closes_app.
    unfold accepted, accept_failures. cbn [filter].
    rewrite (Z.leb_antisym r 0).
    destruct (r <? 0); cbn [negb dispatched errors_logged closes map];
      rewrite ?app_nil_r, <- ?app_assoc; auto.
Qed.

(** X12: while nobody calls [stop()], the accept loop never leaves: after
    any number of [accept] calls it is back at the loop head with the flag
    set and the listening socket open; it has handed every accepted
    connection to a handler thread, in the order of arrival, and logged one
    error for each failed [accept] without stopping. *)
Theorem X12_accept_loop_keeps_serving (server_socket : Z) (accepts : list Z) :
  let st := accept_loop server_socket (serve_schedule accepts) listening in
  running st = true /\ pc st = AtWhile
  /\ dispatched (out st) = accepted accepts
  /\ errors_logged (out st)
     = map (fun _ => "Error accepting connection") (accept_failures accepts)
  /\ closes (out st) = [].
Proof.
  exact (serving_loop server_socket accepts listening eq_refl eq_refl).
Qed.

(** ** Starting the server *)

Lemma files_loaded_app (a b : list event) :
  files_loaded (a ++ b) = (files_loaded a ++ files_loaded b)%list.
Proof.
  induction a as [|e a IH]; simpl; [reflexivity|].
  destruct e; simpl; now rewrite IH.
Qed.

(** [main] up to the call of [run], when the model loads. *)
Lemma main_reaches_run jit_load md net accepts model_path port :
  0 < port <= 65535 ->
  jit_load model_path = Ok md ->
  main jit_load net accepts model_path port
  = (let '(o, t) :=
       run net (serve_schedule accepts)
         {| model_loader_ :=
              {| model_path_ := model_path; model_ := md;
                 loaded_ := true; input_size_ := 16 |};
            port_ := port; running_ := false |} in
     (match o with
      | Ok r => Ok (if fst r then Some 0 else None)
      | Throw e => Ok (Some 1)
      | Undefined => Undefined
      end,
      startup_banner model_path port ++ t
      ++ match o with
         | Throw e => [EvCerr ("Server error: " ++ what e)]
         | _ => []
         end)%list).
Proof.
  intros Hport Hload. unfold main. rewrite (port_check_passes port Hport).
  unfold initialize, load, InferenceServer_new, ModelLoader_new.
  cbn [model_loader_ model_path_ port_ running_ input_size_ model_].
  cbn [bind cout cerr emit lift ret try_catch]. rewrite Hload.
  cbn [bind cout cerr emit lift ret try_catch fst snd negb app
       model_loader_ port_ running_].
  match goal with
  | |- context [run net ?sch ?srv] => destruct (run net sch srv) as [[r|e|] t]
  end; cbn [bind ret cerr emit try_catch app fst snd startup_banner];
    rewrite ?app_nil_r; reflexivity.
Qed.

(** X13: with a valid port, a model that loads, and [socket], [bind] and
    [listen] succeeding, [main] does not return by itself: after any
    number of [accept] calls it is still serving, has read the model file
    once, closed nothing, and dispatched every accepted connection in
    order. *)
Theorem X13_main_keeps_serving
    (jit_load : string -> outcome Module) (md : Module) (net : NetEnv)
    (accepts : list Z) (model_path : string) (port : Z) :
  0 < port <= 65535 ->
  jit_load model_path = Ok md ->
  0 <= socket_result net -> 0 <= bind_result net -> 0 <= listen_result net ->
  let r := main jit_load net accepts model_path port in
  outcome_of r = Ok None
  /\ dispatched (trace_of r) = accepted accepts
  /\ files_loaded (trace_of r) = [model_path]
  /\ closes (trace_of r) = [].
Proof.
  intros Hport Hload Hs Hb Hl r. subst r.
  rewrite (main_reaches_run jit_load md net accepts model_path port
             Hport Hload).
  set (banner := startup_banner model_path port).
  assert (Hd : dispatched banner = []) by reflexivity.
  assert (Hc : closes banner = []) by reflexivity.
  assert (Hf : files_loaded banner = [model_path]) by reflexivity.
  clearbody banner.
  unfold run. cbn [model_loader_ port_ running_].
  apply Z.ltb_ge in Hs, Hb, Hl. rewrite Hs, Hb, Hl.
  cbn [bind cout emit].
  destruct (serving_loop (socket_result net) accepts listening
              eq_refl eq_refl) as (H1 & H2 & H3 & H4 & H5).
  rewrite H2. cbn [fst app outcome_of trace_of snd].
  rewrite app_nil_r.
  rewrite dispatched_app, files_loaded_app, closes_app, Hd, Hf, Hc.
  cbn [dispatched files_loaded closes app]. rewrite H3, H5.
  repeat split.
  assert (Hq : forall sch st, files_loaded (out st) = [] ->
                 files_loaded
                   (out (accept_loop (socket_result net) sch st)) = []).
  { induction sch as [|ev sch IH]; intros st Hst; [exact Hst|].
    cbn [accept_loop fold_left]. apply IH.
    destruct st as [rn p o]. cbn [out] in Hst.
    destruct ev as [| |fd]; destruct p; cbn; try exact Hst;
      try (destruct rn; cbn; rewrite files_loaded_app, Hst; reflexivity).
    destruct (fd <? 0); [destruct rn|]; cbn;
      rewrite files_loaded_app, Hst; reflexivity. }
  now rewrite Hq.
Qed.

Lemma X13_main_serving_witness :
  outcome_of (main (fun _ => Ok trivial_module) net_ready [4; -1; 5]
                "financial_model.pt" 8888) = Ok None
  /\ dispatched
       (trace_of (main (fun _ => Ok trivial_module) net_ready [4; -1; 5]
                    "financial_model.pt" 8888)) = [4; 5].
Proof.
  destruct (X13_main_keeps_serving
              (fun _ => Ok trivial_module) trivial_module net_ready
              [4; -1; 5] "financial_model.pt" 8888) as (H1 & H2 & _);
    try (simpl; lia); try reflexivity.
  split; [exact H1 | exact H2].
Defined.

(** X14: when the model file cannot be loaded, [main] exits with status 1
    after three messages on the error stream; it never creates a socket
    and dispatches nothing. *)
Theorem X14_load_failure_exits_with_status_1
    (jit_load : string -> outcome Module) (e : exn) (net : NetEnv)
    (accepts : list Z) (model_path : string) (port : Z) :
  0 < port <= 65535 ->
  jit_load model_path = Throw e ->
  main jit_load net accepts model_path port
  = main jit_load no_socket [] model_path port
  /\ outcome_of (main jit_load net accepts model_path port) = Ok (Some 1)
  /\ errors_logged (trace_of (main jit_load net accepts model_path port))
     = ["Error loading model: " ++ what e; "Failed to load model";
        "Failed to initialize server"]
  /\ dispatched (trace_of (main jit_load net accepts model_path port)) = []
  /\ closes (trace_of (main jit_load net accepts model_path port)) = [].
Proof.
  intros Hport Hload. unfold main. rewrite (port_check_passes port Hport).
  unfold initialize, load, InferenceServer_new, ModelLoader_new.
  cbn [model_loader_ model_path_ port_ running_ input_size_ model_].
  cbn [bind cout cerr emit lift ret try_catch]. rewrite Hload.
  cbn [bind cout cerr emit lift ret try_catch fst snd negb app].
  repeat split.
Qed.

Lemma X14_load_failure_witness :
  outcome_of (main (fun _ => Throw (c10_Error "file not found")) net_ready
                [4] "missing.pt" 8888) = Ok (Some 1).
Proof.
  destruct (X14_load_failure_exits_with_status_1
              (fun _ => Throw (c10_Error "file not found"))
              (c10_Error "file not found") net_ready [4] "missing.pt" 8888)
    as (_ & H & _); [lia | reflexivity | exact H].
Defined.

(** X15: when [socket] or [listen] fails after the model has loaded, [run]
    logs the failure and returns, nothing is dispatched, and [main] exits
    with status 0; the socket is closed when it had been created. *)
Theorem X15_socket_or_listen_failure_exits_with_status_0
    (jit_load : string -> outcome Module) (md : Module) (net : NetEnv)
    (accepts : list Z) (model_path : string) (port : Z) :
  0 < port <= 65535 ->
  jit_load model_path = Ok md ->
  (socket_result net < 0
   \/ (0 <= socket_result net /\ 0 <= bind_result net
       /\ listen_result net < 0)) ->
  let r := main jit_load net accepts model_path port in
  outcome_of r = Ok (Some 0)
  /\ dispatched (trace_of r) = []
  /\ errors_logged (trace_of r)
     = [if socket_result net <? 0 then "Error creating socket"
        else "Error listening on socket"]
  /\ closes (trace_of r)
     = (if socket_result net <? 0 then [] else [socket_result net]).
Proof.
  intros Hport Hload Hfail r. subst r.
  rewrite (main_reaches_run jit_load md net accepts model_path port
             Hport Hload).
  set (banner := startup_banner model_path port).
  assert (Hd : dispatched banner = []) by reflexivity.
  assert (Hc : closes banner = []) by reflexivity.
  assert (He : errors_logged banner = []) by reflexivity.
  clearbody banner.
  unfold run. cbn [model_loader_ port_ running_].
  destruct Hfail as [Hs | (Hs & Hb & Hl)].
  - apply Z.ltb_lt in Hs. rewrite Hs.
    cbn [bind cerr emit ret fst app outcome_of trace_of snd].
    rewrite ?app_nil_r, dispatched_app, errors_logged_app, closes_app,
      Hd, He, Hc. repeat split.
  - apply Z.ltb_ge in Hs, Hb. apply Z.ltb_lt in Hl. rewrite Hs, Hb, Hl.
    cbn [bind cerr emit ret fst app outcome_of trace_of snd].
    rewrite ?app_nil_r, dispatched_app, errors_logged_app, closes_app,
      Hd, He, Hc. repeat split.
Qed.

Lemma X15_listen_failure_witness :
  outcome_of (main (fun _ => Ok trivial_module) no_listen [4]
                "financial_model.pt" 8888) = Ok (Some 0).
Proof.
  destruct (X15_socket_or_listen_failure_exits_with_status_0
              (fun _ => Ok trivial_module) trivial_module no_listen [4]
              "financial_model.pt" 8888) as (H & _);
    [lia | reflexivity | right; simpl; lia | exact H].
Defined.

(** ** The loader over time *)

Lemma loader_step_load_ok ml md :
  loader_step ml (OpLoad (Ok md))
  = {| model_path_ := model_path_ ml; model_ := md; loaded_ := true;
       input_size_ := input_size_ ml |}.
Proof. reflexivity. Qed.

Lemma loader_step_load_throw ml e :
  loader_step ml (OpLoad (Throw e))
  = {| model_path_ := model_path_ ml; model_ := model_ ml; loaded_ := false;
       input_size_ := input_size_ ml |}.
Proof. reflexivity. Qed.

Lemma loader_after ops : forall ml,
  loaded_ (fold_left loader_step ops ml) = loaded_after ops (loaded_ ml)
  /\ model_ (fold_left loader_step ops ml) = module_after ops (model_ ml)
  /\ model_path_ (fold_left loader_step ops ml) = model_path_ ml.
Proof.
  induction ops as [|op ops IH]; intros ml; [auto|].
  cbn [fold_left]. destruct (IH (loader_step ml op)) as (H1 & H2 & H3).
  rewrite H1, H2, H3.
  destruct op as [[md|e|]|t]; cbn [loaded_after module_after];
    rewrite ?loader_step_load_ok, ?loader_step_load_throw; auto.
Qed.

(** X16: after any sequence of operations on a loader built for a path,
    [is_loaded] tells whether the most recent [load] succeeded, the module
    held is that of the most recent successful [load], every [load] asks
    for the constructor's path, and [predict] reaches the module's
    [forward] exactly when the most recent [load] succeeded: a failed
    reload turns a working loader off. *)
Theorem X16_loader_follows_last_load
    (model_path : string) (ops : list loader_op) :
  let ml := fold_left loader_step ops (ModelLoader_new model_path) in
  is_loaded ml = loaded_after ops false
  /\ model_ ml = module_after ops empty_module
  /\ (forall jit_load,
        files_loaded (trace_of (load jit_load ml)) = [model_path])
  /\ (forall t,
        forward_calls (trace_of (predict ml t))
        = if loaded_after ops false then [t] else [])
  /\ (forall t, loaded_after ops false = false ->
        outcome_of (predict ml t) = Throw (runtime_error "Model not loaded")).
Proof.
  intros ml.
  destruct (loader_after ops (ModelLoader_new model_path)) as (H1 & H2 & H3).
  fold ml in H1, H2, H3. cbn [ModelLoader_new loaded_ model_ model_path_] in *.
  unfold is_loaded. rewrite H1, H2.
  split; [reflexivity|]. split; [reflexivity|]. split; [|split].
  - intros jit_load. unfold load. rewrite H3.
    cbn [bind cout emit lift try_catch].
    destruct (jit_load model_path); reflexivity.
  - intros t. unfold predict. rewrite H1.
    destruct (loaded_after ops false); cbn [negb]; [|reflexivity].
    cbn [bind emit lift try_catch].
    destruct (forward (model_ ml) t) as [out| |]; cbn; try reflexivity.
    destruct (toGenericDict out) as [items| |]; cbn; try reflexivity.
    destruct (convert_items items []); reflexivity.
  - intros t Hoff. unfold predict. rewrite H1, Hoff. reflexivity.
Qed.

(** ** The command line *)

Lemma bind_lift_ok {A B} (a : A) (f : A -> M B) : bind (lift (Ok a)) f = f a.
Proof. unfold bind, lift. destruct (f a). reflexivity. Qed.

(** Well-formed options are consumed in pairs and print nothing. *)
Lemma parse_arguments_options program_name opts : forall tail mp port mp' port',
  settings opts mp port = Ok (mp', port') ->
  parse_arguments program_name (cli_args opts ++ tail) mp port
  = parse_arguments program_name tail mp' port'.
Proof.
  induction opts as [|[path|text] opts IH]; intros tail mp port mp' port' H.
  - cbn in H. now injection H as -> ->.
  - cbn [settings] in H. cbn [cli_args flat_map option_args app].
    cbn [parse_arguments String.eqb Ascii.eqb Bool.eqb orb andb].
    now apply IH.
  - cbn [settings] in H. cbn [cli_args flat_map option_args app].
    cbn [parse_arguments String.eqb Ascii.eqb Bool.eqb orb andb].
    destruct (atoi text) as [p| |]; cbn [obind] in H; try discriminate.
    rewrite bind_lift_ok. now apply IH.
Qed.

Lemma parse_arguments_all_options program_name opts mp port mp' port' :
  settings opts mp port = Ok (mp', port') ->
  parse_arguments program_name (cli_args opts) mp port
  = (Ok (inr (mp', port')), []).
Proof.
  intros H.
  rewrite <- (app_nil_r (cli_args opts)).
  now rewrite (parse_arguments_options program_name opts [] _ _ _ _ H).
Qed.

(** X17: a command line made of [--model <path>] and [--port <number>]
    pairs is read without printing anything; each value is taken as it
    stands, even when it looks like an option, and the last occurrence of
    an option decides. *)
Theorem X17_options_are_read_in_pairs
    (program_name : string) (opts : list cli_option)
    (model_path : string) (port : Z) (model_path' : string) (port' : Z) :
  settings opts model_path port = Ok (model_path', port') ->
  parse_arguments program_name (cli_args opts) model_path port
  = (Ok (inr (model_path', port')), []).
Proof.
  apply parse_arguments_all_options.
Qed.

Lemma X17_options_witness :
  parse_arguments "server"
    ["--model"; "--help"; "--port"; "80"; "--port"; "9000"]
    "financial_model.pt" 8888
  = (Ok (inr ("--help", 9000)), []).
Proof.
  apply (X17_options_are_read_in_pairs "server"
           [SetModel "--help"; SetPort "80"; SetPort "9000"]).
  reflexivity.
Defined.

(** X18: [--help] or [-h] after well-formed options prints the usage and
    ends [main] with status 0, whatever follows on the command line; the
    model file is not touched. *)
Theorem X18_help_exits_with_status_0
    (jit_load : string -> outcome Module) (net : NetEnv) (accepts : list Z)
    (program_name : string) (opts : list cli_option) (arg : string)
    (rest : list string) (model_path : string) (port : Z) :
  settings opts "financial_model.pt" 8888 = Ok (model_path, port) ->
  is_help arg = true ->
  main_argv jit_load net accepts program_name
    (cli_args opts ++ arg :: rest)
  = (Ok (Some 0), trace_of (print_usage program_name)).
Proof.
  intros Hs Hh. unfold main_argv.
  rewrite (parse_arguments_options program_name opts _ _ _ _ _ Hs).
  cbn [parse_arguments]. unfold is_help in Hh. rewrite Hh.
  reflexivity.
Qed.

Lemma X18_help_witness :
  outcome_of (main_argv (fun _ => Ok trivial_module) net_ready [4] "server"
                ["--port"; "9000"; "-h"; "--bogus"]) = Ok (Some 0).
Proof.
  change ["--port"; "9000"; "-h"; "--bogus"]
    with (cli_args [SetPort "9000"] ++ "-h" :: ["--bogus"])%list.
  rewrite (X18_help_exits_with_status_0 (fun _ => Ok trivial_module)
             net_ready [4] "server" [SetPort "9000"] "-h" ["--bogus"]
             "financial_model.pt" 9000); reflexivity.
Defined.

(** X19: after well-formed options, an argument that is no help flag ends
    [main] with status 1 and the message [Unknown argument] when it is not
    [--model] or [--port], and also when it is one of these but stands
    last, without a value; the model file is not touched. *)
Theorem X19_unknown_or_incomplete_argument_exits_with_status_1
    (jit_load : string -> outcome Module) (net : NetEnv) (accepts : list Z)
    (program_name : string) (opts : list cli_option) (arg : string)
    (rest : list string) (model_path : string) (port : Z) :
  settings opts "financial_model.pt" 8888 = Ok (model_path, port) ->
  is_help arg = false ->
  rest = [] \/ (String.eqb arg "--model" = false
                /\ String.eqb arg "--port" = false) ->
  main_argv jit_load net accepts program_name
    (cli_args opts ++ arg :: rest)
  = (Ok (Some 1),
     EvCerr ("Unknown argument: " ++ arg)
     :: trace_of (print_usage program_name)).
Proof.
  intros Hs Hh Hcase. unfold main_argv.
  rewrite (parse_arguments_options program_name opts _ _ _ _ _ Hs).
  cbn [parse_arguments]. unfold is_help in Hh. rewrite Hh.
  destruct Hcase as [-> | [Hm Hp]]; [reflexivity|].
  destruct rest; [reflexivity|]. rewrite Hm, Hp. reflexivity.
Qed.

Lemma X19_incomplete_argument_witness :
  outcome_of (main_argv (fun _ => Ok trivial_module) net_ready [4] "server"
                ["--model"; "m.pt"; "--port"]) = Ok (Some 1).
Proof.
  change ["--model"; "m.pt"; "--port"]
    with (cli_args [SetModel "m.pt"] ++ "--port" :: [])%list.
  rewrite (X19_unknown_or_incomplete_argument_exits_with_status_1
             (fun _ => Ok trivial_module) net_ready [4] "server"
             [SetModel "m.pt"] "--port" [] "m.pt" 8888);
    [reflexivity | reflexivity | reflexivity | now left].
Defined.

(** X20: when the options leave a port outside 1..65535 - in particular
    when the text after [--port] does not start with a number, which
    [atoi] reads as 0 - [main] reports the invalid port and exits with
    status 1 before it touches the model file or the network. *)
Theorem X20_invalid_port_exits_with_status_1
    (jit_load : string -> outcome Module) (net : NetEnv) (accepts : list Z)
    (program_name : string) (opts : list cli_option)
    (model_path : string) (port : Z) :
  settings opts "financial_model.pt" 8888 = Ok (model_path, port) ->
  ~ (0 < port <= 65535) ->
  main_argv jit_load net accepts program_name (cli_args opts)
  = (Ok (Some 1), [EvCerr ("Invalid port number: " ++ string_of_Z port)]).
Proof.
  intros Hs Hbad. unfold main_argv.
  rewrite (parse_arguments_all_options program_name opts _ _ _ _ Hs).
  cbn [bind]. unfold main.
  assert (Hc : ((port <=? 0) || (65535 <? port))%bool = true).
  { apply orb_true_iff.
    destruct (Z.leb_spec port 0); [now left|]. right. apply Z.ltb_lt. lia. }
  rewrite Hc. reflexivity.
Qed.

Lemma X20_invalid_port_witness :
  main_argv (fun _ => Ok trivial_module) net_ready [4] "server"
    ["--port"; "http"]
  = (Ok (Some 1), [EvCerr "Invalid port number: 0"]).
Proof.
  apply (X20_invalid_port_exits_with_status_1 (fun _ => Ok trivial_module)
           net_ready [4] "server" [SetPort "http"] "financial_model.pt" 0).
  - reflexivity.
  - lia.
Defined.

(** ** Inputs for the properties of the request buffer *)

Lemma X7_request_cut_witness :
  handle_client (loader_width 3) 5
    (RecvBytes (request_of_4095 ++ payload_two))
  = handle_client (loader_width 3) 5 (RecvBytes request_of_4095).
Proof.
  apply (X7_request_is_cut_at_4095_bytes (loader_width 3) 5
           request_of_4095 payload_two).
  vm_compute. reflexivity.
Defined.

Lemma X8_request_nul_witness :
  handle_client (loader_width 3) 5 (RecvBytes request_with_nul)
  = handle_client (loader_width 3) 5 (RecvBytes payload_two).
Proof.
  apply (X8_request_ends_at_first_nul (loader_width 3) 5
           payload_two "[1,2,3]").
  - vm_compute. discriminate.
  - reflexivity.
  - apply Nat.ltb_lt. reflexivity.
Defined.

(** ** Well-formed lists of numbers *)

Lemma m_cat {R} r1 r2 s cs (K : string -> caps -> option R) :
  m (Cat r1 r2) s cs K = m r1 s cs (fun s' cs' => m r2 s' cs' K).
Proof. reflexivity. Qed.

Lemma m_star {R} c s cs (K : string -> caps -> option R) :
  m (Star c) s cs K = star_k c (fun s' => K s' cs) s.
Proof. reflexivity. Qed.

Lemma m_group {R} i r s cs (K : string -> caps -> option R) :
  m (Group i r) s cs K
  = m r s cs (fun s' cs' => K s' ((i, consumed s s') :: cs')).
Proof. reflexivity. Qed.

Lemma m_chr_hit {R} c a s cs (K : string -> caps -> option R) :
  in_class c a = true -> m (Chr c) (String a s) cs K = K s cs.
Proof. intros H. cbn [m]. now rewrite H. Qed.

Lemma m_opt_some {R} r s cs (K : string -> caps -> option R) x :
  m r s cs K = Some x -> m (Opt r) s cs K = Some x.
Proof. intros H. cbn [m]. now rewrite H. Qed.

Lemma m_opt_none {R} r s cs (K : string -> caps -> option R) :
  m r s cs K = None -> m (Opt r) s cs K = K s cs.
Proof. intros H. cbn [m]. now rewrite H. Qed.

Lemma m_chr_stops {R} c s cs (K : string -> caps -> option R) :
  stops c s = true -> m (Chr c) s cs K = None.
Proof.
  destruct s as [|a s]; [reflexivity|]. cbn [stops m].
  intros H%negb_true_iff. now rewrite H.
Qed.

Lemma m_plus_stops {R} c s cs (K : string -> caps -> option R) :
  stops c s = true -> m (Plus c) s cs K = None.
Proof.
  destruct s as [|a s]; [reflexivity|]. cbn [stops m].
  intros H%negb_true_iff. now rewrite H.
Qed.

Lemma star_k_stops {R} c (k : string -> option R) s :
  stops c s = true -> star_k c k s = k s.
Proof.
  destruct s as [|a s]; [reflexivity|]. cbn [stops star_k].
  intros H%negb_true_iff. now rewrite H.
Qed.

(** The greedy star gives one character back when the continuation
    needs it. *)
Lemma star_k_backoff {R} c (k : string -> option R) l a r x :
  all_in c l = true -> in_class c a = true -> stops c r = true ->
  k r = None -> k (String a r) = Some x ->
  star_k c k (l ++ String a r) = Some x.
Proof.
  intros Hl Ha Hr Hk0 Hk. induction l as [|b l IH]; cbn [append star_k].
  - now rewrite Ha, (star_k_stops c k r Hr), Hk0.
  - cbn [all_in] in Hl. apply andb_true_iff in Hl as [Hb Hl].
    now rewrite Hb, (IH Hl).
Qed.

Lemma m_plus_greedy {R} c d t cs (K : string -> caps -> option R) x :
  d <> "" -> all_in c d = true -> stops c t = true ->
  K t cs = Some x -> m (Plus c) (d ++ t) cs K = Some x.
Proof.
  destruct d as [|a d]; [congruence|]. intros _ Hd Ht HK.
  cbn [all_in] in Hd. apply andb_true_iff in Hd as [Ha Hd].
  cbn [append m]. rewrite Ha.
  now apply (star_k_greedy c (fun s'' => K s'' cs) d t x).
Qed.

Lemma string_last (d : string) :
  d <> "" -> exists l a, d = l ++ String a "".
Proof.
  induction d as [|a d IH]; [congruence|]. intros _.
  destruct d as [|b d].
  - now exists "", a.
  - destruct IH as (l & z & E); [discriminate|].
    exists (String a l), z. cbn [append]. now rewrite <- E.
Qed.

(** What a separator and a digit are not. *)
Lemma is_sep_stops a :
  is_sep a = true ->
  in_class digit a = false /\ in_class sign a = false
  /\ in_class (CLit "."%char) a = false
  /\ in_class (COneOf ["e"%char; "E"%char]) a = false.
Proof.
  unfold is_sep, Float32.is_digit, digit, sign.
  set (d := in_class (CRange "0"%char "9"%char) a).
  cbn [in_class ascii_in existsb].
  destruct d, (Ascii.eqb a "."), (Ascii.eqb a "e"), (Ascii.eqb a "E"),
    (Ascii.eqb a "+"), (Ascii.eqb a "-"); cbn; intros H;
    try discriminate H; auto.
Qed.

Lemma digit_stops a :
  in_class digit a = true ->
  in_class sign a = false /\ in_class (CLit "."%char) a = false.
Proof.
  intros H. apply (proj1 (is_digit_spec a)) in H.
  cbn [in_class sign ascii_in existsb].
  rewrite !orb_false_r.
  assert (Hne : forall c, (nat_of_ascii c < 48)%nat -> Ascii.eqb a c = false).
  { intros c Hc. apply Ascii.eqb_neq. intros ->. lia. }
  rewrite !Hne by (vm_compute; lia). auto.
Qed.

Lemma token_stop_stops t :
  token_stop t = true ->
  stops digit t = true /\ stops sign t = true
  /\ stops (CLit "."%char) t = true
  /\ stops (COneOf ["e"%char; "E"%char]) t = true.
Proof.
  destruct t as [|a t]; [now cbn|]. cbn [token_stop stops].
  intros (H1 & H2 & H3 & H4)%is_sep_stops.
  now rewrite H1, H2, H3, H4.
Qed.

Lemma digits1_head d t :
  digits1 d -> stops sign (d ++ t) = true
               /\ stops (CLit "."%char) (d ++ t) = true.
Proof.
  intros [Hne Hd]. destruct d as [|a d]; [congruence|].
  cbn [all_in] in Hd. apply andb_true_iff in Hd as [Ha _].
  destruct (digit_stops a Ha) as [H1 H2].
  cbn [append stops]. now rewrite H1, H2.
Qed.

Lemma m_opt_sign {R} sg s cs (K : string -> caps -> option R) x :
  sign_part sg -> stops sign s = true -> K s cs = Some x ->
  m (Opt (Chr sign)) (sg ++ s) cs K = Some x.
Proof.
  intros [-> | [-> | ->]] Hs HK.
  - cbn [append]. rewrite m_opt_none; [exact HK|]. now apply m_chr_stops.
  - apply m_opt_some. exact HK.
  - apply m_opt_some. exact HK.
Qed.

(** The exponent of a number word, followed by the end of the token. *)
Lemma exp_part_match ex t cs :
  exp_part ex -> token_stop t = true ->
  exists cs',
    m (Opt (Group 1
         (Cat (Chr (COneOf ["e"%char; "E"%char]))
         (Cat (Opt (Chr sign)) (Plus digit)))))
      (ex ++ t) cs (fun s' cs' => Some (s', cs')) = Some (t, cs').
Proof.
  intros Hex Ht. destruct (token_stop_stops t Ht) as (Hd & Hs & Hp & He).
  destruct Hex as [-> | (c & sg & d & -> & Hc & Hsg & Hd1)].
  - exists cs. cbn [append]. rewrite m_opt_none; [reflexivity|].
    rewrite m_group, m_cat. now apply m_chr_stops.
  - eexists. apply m_opt_some. cbn [append].
    rewrite m_group, m_cat, m_chr_hit by exact Hc.
    rewrite m_cat, sapp_assoc.
    apply (m_opt_sign sg (d ++ t) cs); [exact Hsg | |].
    + now apply digits1_head.
    + destruct Hd1 as [Hne Hall].
      apply (m_plus_greedy digit d t cs); [exact Hne | exact Hall | exact Hd |].
      reflexivity.
Qed.

Lemma exp_part_head ex t :
  exp_part ex -> token_stop t = true ->
  stops digit (ex ++ t) = true /\ stops (CLit "."%char) (ex ++ t) = true.
Proof.
  intros Hex Ht. destruct (token_stop_stops t Ht) as (Hd & Hs & Hp & He).
  destruct Hex as [-> | (c & sg & d & -> & Hc & _)]; [now cbn [append]|].
  cbn [append stops in_class].
  cbn [ascii_in existsb] in Hc. rewrite orb_false_r in Hc.
  apply orb_true_iff in Hc as [Hc | Hc]; apply Ascii.eqb_eq in Hc;
    subst c; now vm_compute.
Qed.

(** A number word followed by the end of the token is matched whole. *)
Lemma number_word_match_at w t :
  number_word w -> token_stop t = true ->
  exists cs, match_at number_regex (w ++ t) = Some (t, cs).
Proof.
  intros (sg & ip & fr & ex & -> & Hsg & Hip & Hfr & Hex) Ht.
  destruct (exp_part_match ex t [] Hex Ht) as (cs' & Hexp).
  destruct (exp_part_head ex t Hex Ht) as (Hed & Hep).
  exists cs'. unfold match_at, number_regex.
  rewrite !sapp_assoc, m_cat.
  apply (m_opt_sign sg); [exact Hsg | now apply digits1_head |].
  rewrite m_cat, m_star.
  destruct Hip as [Hne Hall].
  destruct Hfr as [-> | (d & -> & Hd1)].
  - (* no fraction: the last integer digit is given back *)
    destruct (string_last ip Hne) as (l & a & ->).
    rewrite all_in_app in Hall. apply andb_true_iff in Hall as [Hl Ha].
    cbn [all_in] in Ha. rewrite andb_true_r in Ha.
    destruct (digit_stops a Ha) as [_ Hadot].
    rewrite sapp_assoc. cbn [append].
    apply star_k_backoff; [exact Hl | exact Ha | exact Hed | |].
    + rewrite m_cat, m_opt_none by now apply m_chr_stops.
      rewrite m_cat. now apply m_plus_stops.
    + rewrite m_cat, m_opt_none.
      2:{ apply m_chr_stops. cbn [stops]. now rewrite Hadot. }
      rewrite m_cat.
      apply (m_plus_greedy digit (String a "") (ex ++ t) []);
        [discriminate | | exact Hed | exact Hexp].
      cbn [all_in]. now rewrite Ha.
  - (* a fraction: the greedy path succeeds *)
    rewrite !sapp_assoc. cbn [append].
    apply star_k_greedy; [exact Hall | reflexivity |].
    rewrite m_cat. apply m_opt_some.
    rewrite m_chr_hit by reflexivity. rewrite m_cat.
    destruct Hd1 as [Hdne Hdall].
    apply (m_plus_greedy digit d (ex ++ t) []);
      [exact Hdne | exact Hdall | exact Hed | exact Hexp].
Qed.

(** No token starts at a separator or at the end of the text. *)
Lemma number_no_match_at s :
  token_stop s = true -> match_at number_regex s = None.
Proof.
  intros (Hd & Hs & Hp & _)%token_stop_stops.
  unfold match_at, number_regex.
  rewrite m_cat, m_opt_none by now apply m_chr_stops.
  rewrite m_cat, m_star, star_k_stops by exact Hd.
  rewrite m_cat, m_opt_none by now apply m_chr_stops.
  rewrite m_cat. now apply m_plus_stops.
Qed.

Lemma all_sep_app a b :
  all_sep (a ++ b) = (all_sep a && all_sep b)%bool.
Proof.
  induction a as [|x a IH]; cbn [append all_sep]; [reflexivity|].
  now rewrite IH, andb_assoc.
Qed.

Lemma all_sep_token_stop s : all_sep s = true -> token_stop s = true.
Proof.
  destruct s as [|a s]; [reflexivity|]. cbn [all_sep token_stop].
  now intros [H _]%andb_true_iff.
Qed.

Lemma regex_search_from_hit r pre s rest cs :
  match_at r s = Some (rest, cs) ->
  regex_search_from r pre s
  = Some {| prefix := pre; matched := consumed s rest;
            suffix := rest; groups := cs |}.
Proof. intros H. destruct s; cbn [regex_search_from]; now rewrite H. Qed.

Lemma search_number_skip sep : forall pre s,
  all_sep sep = true ->
  regex_search_from number_regex pre (sep ++ s)
  = regex_search_from number_regex (pre ++ sep) s.
Proof.
  induction sep as [|a sep IH]; intros pre s H.
  - now rewrite sapp_nil_r.
  - cbn [all_sep] in H. apply andb_true_iff in H as [Ha H].
    cbn [append regex_search_from].
    rewrite number_no_match_at by exact Ha.
    rewrite IH by exact H. now rewrite sapp_assoc.
Qed.

Lemma search_number_word sep w t :
  all_sep sep = true -> number_word w -> token_stop t = true ->
  exists mt,
    regex_search number_regex (sep ++ w ++ t) = Some mt
    /\ matched mt = w /\ suffix mt = t.
Proof.
  intros Hsep Hw Ht.
  destruct (number_word_match_at w t Hw Ht) as (cs & Hm).
  unfold regex_search. rewrite search_number_skip by exact Hsep.
  rewrite (regex_search_from_hit _ _ _ _ _ Hm).
  eexists. split; [reflexivity|]. cbn [matched suffix].
  now rewrite consumed_app.
Qed.

Lemma search_number_none sep :
  all_sep sep = true -> regex_search number_regex sep = None.
Proof.
  intros H. apply regex_search_none. intros p t ->.
  rewrite all_sep_app in H. apply andb_true_iff in H as [_ H].
  now apply number_no_match_at, all_sep_token_stop.
Qed.

Lemma number_word_not_empty w : number_word w -> w <> "".
Proof.
  intros (sg & ip & fr & ex & -> & _ & [Hne _] & _) E.
  destruct sg; [|discriminate]. destruct ip; [congruence | discriminate].
Qed.

Lemma list_text_stop sep rest :
  all_sep sep = true -> (rest <> [] -> sep <> "") ->
  token_stop (sep ++ list_text rest) = true.
Proof.
  intros Hsep Hne. destruct sep as [|a sep].
  - destruct rest as [|x rest]; [reflexivity|].
    exfalso. now apply Hne.
  - cbn [all_sep] in Hsep. now apply andb_true_iff in Hsep as [Ha _].
Qed.

Lemma tokens_of_list ws : forall sep0 fuel,
  all_sep sep0 = true -> well_separated ws ->
  (slen (sep0 ++ list_text ws) < fuel)%nat ->
  sregex_iterate fuel number_regex (sep0 ++ list_text ws) = map fst ws.
Proof.
  induction ws as [|[w sep] rest IH]; intros sep0 fuel Hsep Hws Hfuel;
    (destruct fuel as [|f]; [lia|]); cbn [sregex_iterate list_text map fst].
  - rewrite sapp_nil_r. now rewrite search_number_none.
  - cbn [well_separated] in Hws. destruct Hws as (Hw & Hs & Hne & Hrest).
    destruct (search_number_word sep0 w (sep ++ list_text rest) Hsep Hw)
      as (mt & -> & Hm & Hsuf); [now apply list_text_stop|].
    rewrite Hm, Hsuf.
    pose proof (number_word_not_empty w Hw) as Hwne.
    destruct (Nat.eqb (slen w) 0) eqn:E; [now apply slen_zero in E|].
    f_equal. apply IH; [exact Hs | exact Hrest |].
    cbn [list_text] in Hfuel. rewrite !slen_app in Hfuel.
    assert (slen w <> 0)%nat by (destruct w; [congruence | cbn; lia]).
    rewrite slen_app. lia.
Qed.

Lemma numeric_tokens_of_list sep0 ws :
  all_sep sep0 = true -> well_separated ws ->
  numeric_tokens (sep0 ++ list_text ws) = map fst ws.
Proof.
  intros Hsep Hws. unfold numeric_tokens, sregex_all.
  apply tokens_of_list; [exact Hsep | exact Hws | lia].
Qed.

Lemma quote_position pre : forall pre' x y,
  all_in no_quote pre = true ->
  pre ++ x = pre' ++ String "034"%char y ->
  (slen pre <= slen pre')%nat.
Proof.
  induction pre as [|a pre IH]; intros pre' x y Hq E; [cbn; lia|].
  cbn [all_in] in Hq. apply andb_true_iff in Hq as [Ha Hq].
  destruct pre' as [|b pre'].
  - cbn [append] in E. injection E as -> _. discriminate Ha.
  - cbn [append] in E. injection E as _ E.
    apply IH in E; [|exact Hq]. unfold slen in *. cbn [String.length]. lia.
Qed.

Lemma list_text_not_empty sep0 ws :
  ws <> [] -> well_separated ws -> sep0 ++ list_text ws <> "".
Proof.
  destruct ws as [|[w sep] rest]; [congruence|]. intros _ (Hw & _) E.
  apply number_word_not_empty in Hw.
  destruct sep0; [|discriminate E]. cbn [append list_text] in E.
  destruct w; [congruence | discriminate E].
Qed.

Lemma number_word_intro sg ip fr ex :
  sign_part sg -> digits1 ip -> frac_part fr -> exp_part ex ->
  number_word (sg ++ ip ++ fr ++ ex).
Proof. intros. now exists sg, ip, fr, ex. Qed.

Lemma words_two_well_separated : well_separated words_two.
Proof.
  assert (D : forall d, String.eqb d "" = false ->
                        all_in digit d = true -> digits1 d).
  { intros d Hne Hd. split; [|exact Hd]. intros ->. discriminate Hne. }
  cbn [words_two well_separated]. repeat split; try congruence.
  - apply (number_word_intro "" "1" ".0" "");
      [now left | now apply D | | now left].
    right. exists "0". split; [reflexivity | now apply D].
  - apply (number_word_intro "" "2" ".0" "");
      [now left | now apply D | | now left].
    right. exists "0". split; [reflexivity | now apply D].
Qed.

Lemma words_three_well_separated : well_separated words_three.
Proof.
  assert (D : forall d, String.eqb d "" = false ->
                        all_in digit d = true -> digits1 d).
  { intros d Hne Hd. split; [|exact Hd]. intros ->. discriminate Hne. }
  cbn [words_three well_separated]. repeat split; try discriminate.
  - apply (number_word_intro "" "1" "" "");
      [now left | now apply D | now left | now left].
  - apply (number_word_intro "-" "2" ".5" "e1");
      [right; now left | now apply D | |].
    + right. exists "5". split; [reflexivity | now apply D].
    + right. exists "e"%char, "", "1".
      repeat split; [now left | discriminate].
  - apply (number_word_intro "+" "3" "" "");
      [right; now right | now apply D | now left | now left].
Qed.

(** X21: a payload whose first double quote opens a [features] key with a
    list of numbers, written as JSON writes them and separated by
    characters that cannot be part of a number, decodes to exactly these
    numbers, each converted by [stof], in order; what follows the closing
    bracket is not looked at. *)
Theorem X21_features_list_decodes_to_its_numbers
    (pre ws1 ws2 sep0 post : string) (ws : list (string * string)) :
  all_in no_quote pre = true ->
  all_in CSpace ws1 = true -> all_in CSpace ws2 = true ->
  ws <> [] -> all_sep sep0 = true -> well_separated ws ->
  all_in not_rbracket (sep0 ++ list_text ws) = true ->
  parse_input_json (pre ++ field_text ws1 ws2 (sep0 ++ list_text ws) post)
  = omap stof (map fst ws).
Proof.
  intros Hpre H1 H2 Hne Hsep Hws Hbody.
  rewrite parse_input_json_tokens. f_equal.
  rewrite (decode_tokens_field _ pre (sep0 ++ list_text ws) post).
  - now apply numeric_tokens_of_list.
  - split; [|now apply list_text_not_empty].
    exists ws1, ws2. repeat split; assumption.
  - intros pre' body' post' [(v1 & v2 & E & _) _].
    unfold field_text in E.
    apply (quote_position pre pre' _ _ Hpre E).
Qed.

Lemma X21_features_list_witness :
  parse_input_json payload_two = omap stof (map fst words_two).
Proof.
  change payload_two
    with ("{" ++ field_text "" " " ("" ++ list_text words_two) "}").
  apply (X21_features_list_decodes_to_its_numbers "{" "" " " "" "}"
           words_two); try reflexivity.
  - discriminate.
  - exact words_two_well_separated.
Defined.

(** X22: a text without a double quote that is a sequence of numbers,
    written as JSON writes them and separated by characters that cannot
    be part of a number - a bare array such as [[1, 2, 3]] - decodes to
    exactly these numbers, each converted by [stof], in order. *)
Theorem X22_bare_list_decodes_to_its_numbers
    (sep0 : string) (ws : list (string * string)) :
  all_sep sep0 = true -> well_separated ws ->
  all_in no_quote (sep0 ++ list_text ws) = true ->
  parse_input_json (sep0 ++ list_text ws) = omap stof (map fst ws).
Proof.
  intros Hsep Hws Hq.
  rewrite parse_input_json_tokens. f_equal.
  rewrite decode_tokens_no_field.
  - now apply numeric_tokens_of_list.
  - intros pre body post [(v1 & v2 & E & _) _].
    rewrite E, all_in_app in Hq. apply andb_true_iff in Hq as [_ Hq].
    discriminate Hq.
Qed.

Lemma X22_bare_list_witness :
  parse_input_json "[1, -2.5e1, +3]" = omap stof ["1"; "-2.5e1"; "+3"].
Proof.
  apply (X22_bare_list_decodes_to_its_numbers "[" words_three).
  - reflexivity.
  - exact words_three_well_separated.
  - reflexivity.
Defined.
